(** * A rolling window of success/failure buckets (window.go)

    Shallow embedding of package [circuit]'s [window]: a ring of buckets
    (Go's container/ring), the bucket counters (int64, wrapping), the
    time-driven rotation on writes and the aggregate reads.

    Modelling choices, all following the source:
    - [int64] values are [Z] with the two's-complement wrap-around written
      out ([wrap64]); [time.Duration] is an int64 count of nanoseconds;
    - a [time.Time] is the reading of the monotonic clock, in nanoseconds;
      every call of [time.Now] / [time.Since] is an explicit argument of the
      method that makes it, in the order the calls are made;
    - buckets live in a heap and the ring elements hold pointers to them
      ([Value] is an interface that is nil or holds a [*bucket]);
    - a [*ring.Ring] is the circular list read from the element it points
      to: the empty list is the nil pointer, [Next] rotates by one;
    - methods run in a state-and-panic monad over the heap and the
      receiver;
    - every method holds [bucketLock] from its first statement to its
      return: the sequential definitions run a method as a whole, and the
      lock itself is modelled with the goroutines, in the part on concurrent
      writers. *)

From Stdlib Require Import ZArith Lia.
From Stdlib Require Import Floats.SpecFloat.
From stdpp Require Import base tactics option numbers list.

Local Open Scope Z_scope.

(** ** Machine integers *)

Definition int64_min : Z := - 2 ^ 63.
Definition int64_max : Z := 2 ^ 63 - 1.

Definition in_int64 (z : Z) : Prop := int64_min <= z <= int64_max.

(** Two's-complement reduction of an integer to int64. *)
Definition wrap64 (z : Z) : Z := (z + 2 ^ 63) mod 2 ^ 64 - 2 ^ 63.

(** Saturation to int64, as [time.Time.Sub] does for durations. *)
Definition sat64 (z : Z) : Z := Z.max int64_min (Z.min int64_max z).

(** ** Panics and the state monad *)

Inductive panic : Set :=
| NilDereference        (* nil pointer dereference *)
| DivideByZero          (* integer divide by zero *)
| NilInterfaceConversion (* type assertion on a nil interface *)
| DanglingPointer.      (* model only: an address outside the heap *)

Inductive result (A : Type) : Type :=
| Ok (a : A)
| Panic (p : panic).
Arguments Ok {A} a.
Arguments Panic {A} p.

Definition M (S A : Type) : Type := S -> result (A * S).

Definition ret {S A} (a : A) : M S A := fun s => Ok (a, s).

Definition bind {S A B} (c : M S A) (k : A -> M S B) : M S B :=
  fun s => match c s with
           | Ok (a, s') => k a s'
           | Panic p => Panic p
           end.

Definition raise {S A} (p : panic) : M S A := fun _ => Panic p.

Definition lift {S A} (r : result A) : M S A :=
  fun s => match r with Ok a => Ok (a, s) | Panic p => Panic p end.

#[global] Instance M_ret {S} : MRet (M S) := fun A a => ret a.
#[global] Instance M_bind {S} : MBind (M S) := fun A B k c => bind c k.

(** ** Buckets *)

Record bucket : Set := { failure : Z; success : Z }.

Abbreviation addr := nat (only parsing).

(** The value of a ring element: a nil interface or a [*bucket]. *)
Abbreviation Value := (option addr) (only parsing).

(** The type assertion of [x] to a bucket pointer. *)
Definition as_bucket (x : Value) : result addr :=
  match x with
  | Some b => Ok b
  | None => Panic NilInterfaceConversion
  end.

(** ** container/ring *)

Abbreviation Ring := (list Value) (only parsing).

(** [ring.New(n)]: nil when [n <= 0], else [n] elements with nil values. *)
Definition ring_New (n : Z) : Ring :=
  if n <=? 0 then [] else replicate (Z.to_nat n) None.

(** [r.Len()]; zero on the nil ring. *)
Definition ring_Len (r : Ring) : nat := length r.

(** [r.Next()] *)
Definition ring_Next (r : Ring) : result Ring :=
  match r with
  | [] => Panic NilDereference
  | x :: rest => Ok (rest ++ [x])
  end.

(** [r.Value] *)
Definition ring_Value (r : Ring) : result Value :=
  match r with
  | [] => Panic NilDereference
  | x :: _ => Ok x
  end.

(** [r.Value = v] *)
Definition ring_set_Value (r : Ring) (v : Value) : result Ring :=
  match r with
  | [] => Panic NilDereference
  | _ :: rest => Ok (v :: rest)
  end.

(** [r.Do(f)]: calls [f] on every element, forward from [r]; nothing on
    the nil ring.  The variables that the closure captures and assigns are
    threaded through as [acc]. *)
Fixpoint ring_Do {S A} (r : Ring) (f : Value -> A -> M S A) (acc : A) : M S A :=
  match r with
  | [] => ret acc
  | x :: rest => acc' ← f x acc; ring_Do rest f acc'
  end.

(** ** The window and the program state *)

Abbreviation Time := Z (only parsing).

Record window : Set := {
  buckets : Ring;
  bucketTime : Z;
  lastAccess : Time
}.

Record state : Set := {
  heap : list bucket;
  self : window
}.

(** [time.Since(t)] with the clock reading [now]. *)
Definition Since (t now : Time) : Z := sat64 (now - t).

(** *** Heap accesses *)

(** [&bucket{}] *)
Definition new_bucket : M (list bucket) addr :=
  fun h => Ok (length h, h ++ [{| failure := 0; success := 0 |}]).

Definition load (b : addr) : M state bucket :=
  fun s => match heap s !! b with
           | Some x => Ok (x, s)
           | None => Panic DanglingPointer
           end.

Definition store (b : addr) (x : bucket) : M state unit :=
  fun s => match heap s !! b with
           | Some _ => Ok (tt, {| heap := <[b := x]> (heap s); self := self s |})
           | None => Panic DanglingPointer
           end.

Definition set_failure (b : addr) (v : Z) : M state unit :=
  x ← load b; store b {| failure := v; success := success x |}.

Definition set_success (b : addr) (v : Z) : M state unit :=
  x ← load b; store b {| failure := failure x; success := v |}.

(** *** Receiver fields *)

Definition get_buckets : M state Ring := fun s => Ok (buckets (self s), s).
Definition get_bucketTime : M state Z := fun s => Ok (bucketTime (self s), s).
Definition get_lastAccess : M state Time := fun s => Ok (lastAccess (self s), s).

Definition set_buckets (r : Ring) : M state unit :=
  fun s => Ok (tt, {| heap := heap s;
                      self := {| buckets := r;
                                 bucketTime := bucketTime (self s);
                                 lastAccess := lastAccess (self s) |} |}).

Definition set_lastAccess (t : Time) : M state unit :=
  fun s => Ok (tt, {| heap := heap s;
                      self := {| buckets := buckets (self s);
                                 bucketTime := bucketTime (self s);
                                 lastAccess := t |} |}).

(** [DefaultWindowTime] and [DefaultWindowBuckets] *)
Definition DefaultWindowTime : Z := 1000000 * 10000.
Definition DefaultWindowBuckets : Z := 10.

(** ** bucket methods *)

Definition bucket_Reset (b : addr) : M state unit :=
  set_failure b 0 ;;
  set_success b 0.

Definition bucket_Fail (b : addr) : M state unit :=
  x ← load b;
  set_failure b (wrap64 (failure x + 1)).

Definition bucket_Success (b : addr) : M state unit :=
  x ← load b;
  set_success b (wrap64 (success x + 1)).

(** ** window methods *)

(** The loop of [NewWindow]: [k] iterations remain. *)
Fixpoint NewWindow_loop (k : nat) (buckets : Ring) : M (list bucket) Ring :=
  match k with
  | O => ret buckets
  | S k' =>
      b ← new_bucket;
      buckets ← lift (ring_set_Value buckets (Some b));
      buckets ← lift (ring_Next buckets);
      NewWindow_loop k' buckets
  end.

(** [NewWindow(windowTime, windowBuckets)], the clock reading [now]. *)
Definition NewWindow (windowTime windowBuckets : Z) (now : Time)
  : M (list bucket) window :=
  let buckets := ring_New windowBuckets in
  buckets ← NewWindow_loop (ring_Len buckets) buckets;
  (if windowBuckets =? 0 then raise DivideByZero else ret tt) ;;
  let bucketTime := wrap64 (Z.quot windowTime windowBuckets) in
  ret {| buckets := buckets; bucketTime := bucketTime; lastAccess := now |}.

(** [w.Fail()]: [t_since] is the clock read by [time.Since], [t_now] the
    one read by [time.Now]. *)
Definition Fail (t_since t_now : Time) : M state unit :=
  r ← get_buckets;
  x ← lift (ring_Value r);
  b ← lift (as_bucket x);
  last ← get_lastAccess;
  bt ← get_bucketTime;
  b ← (if Since last t_since >? bt then
          r ← lift (ring_Next r);
          set_buckets r ;;
          x ← lift (ring_Value r);
          b ← lift (as_bucket x);
          bucket_Reset b ;;
          ret b
        else ret b);
  set_lastAccess t_now ;;
  bucket_Fail b.

(** [w.Success()] *)
Definition Success (t_since t_now : Time) : M state unit :=
  r ← get_buckets;
  x ← lift (ring_Value r);
  b ← lift (as_bucket x);
  last ← get_lastAccess;
  bt ← get_bucketTime;
  b ← (if Since last t_since >? bt then
          r ← lift (ring_Next r);
          set_buckets r ;;
          x ← lift (ring_Value r);
          b ← lift (as_bucket x);
          bucket_Reset b ;;
          ret b
        else ret b);
  set_lastAccess t_now ;;
  bucket_Success b.

(** [w.Failures()] *)
Definition Failures : M state Z :=
  r ← get_buckets;
  ring_Do r (fun x failures =>
               b ← lift (as_bucket x);
               v ← load b;
               ret (wrap64 (failures + failure v))) 0.

(** [w.Successes()] *)
Definition Successes : M state Z :=
  r ← get_buckets;
  ring_Do r (fun x successes =>
               b ← lift (as_bucket x);
               v ← load b;
               ret (wrap64 (successes + success v))) 0.

(** float64 *)
Definition float64 := spec_float.
Definition prec64 : Z := 53.
Definition emax64 : Z := 1024.

(** [float64(n)] for an int64 [n]: rounded to nearest, ties to even. *)
Definition float64_of_int64 (n : Z) : float64 :=
  binary_normalize prec64 emax64 n 0 false.

Definition float64_div (x y : float64) : float64 := SFdiv prec64 emax64 x y.

(** [w.ErrorRate()] *)
Definition ErrorRate : M state float64 :=
  r ← get_buckets;
  tf ← ring_Do r (fun x '(total, failures) =>
                     b ← lift (as_bucket x);
                     v ← load b;
                     ret (wrap64 (total + wrap64 (failure v + success v)),
                          wrap64 (failures + failure v))) (0, 0);
  let '(total, failures) := tf in
  if total =? 0 then ret (S754_zero false)
  else ret (float64_div (float64_of_int64 failures) (float64_of_int64 total)).

(** [w.Reset()] *)
Definition Reset : M state unit :=
  r ← get_buckets;
  ring_Do r (fun x _ =>
               b ← lift (as_bucket x);
               bucket_Reset b) tt.

(** * Auxiliary definitions *)

(** ** The monad *)

Ltac munfold :=
  unfold mbind, M_bind, mret, M_ret, bind, ret, lift, raise,
    get_buckets, get_bucketTime, get_lastAccess, set_buckets, set_lastAccess.

Ltac munfold_in H :=
  unfold mbind, M_bind, mret, M_ret, bind, ret, lift, raise,
    get_buckets, get_bucketTime, get_lastAccess, set_buckets, set_lastAccess in H.

(** Case analysis on the heap lookups of a goal, as they come. *)
Ltac lockstep :=
  repeat (match goal with
          | |- context [match ?X with Some _ => _ | None => _ end] =>
              destruct X eqn:?
          end; simpl; try done).

(** ** What a ring points to *)

(** The bucket behind a ring value, with the panic its use raises. *)
Definition deref (h : list bucket) (x : Value) : result bucket :=
  match x with
  | None => Panic NilInterfaceConversion
  | Some a => match h !! a with
              | Some v => Ok v
              | None => Panic DanglingPointer
              end
  end.

(** The buckets of a ring, in ring order from the current one. *)
Fixpoint counts (h : list bucket) (r : Ring) : result (list bucket) :=
  match r with
  | [] => Ok []
  | x :: rest =>
      match deref h x with
      | Ok v => match counts h rest with
                | Ok vs => Ok (v :: vs)
                | Panic p => Panic p
                end
      | Panic p => Panic p
      end
  end.

Definition sumZ (f : bucket -> Z) (vs : list bucket) : Z :=
  foldr (fun v acc => f v + acc) 0 vs.

(** A closure that reads the bucket behind the value and updates what it
    captured. *)
Definition reader {A} (g : A -> bucket -> A) (x : Value) (acc : A) : M state A :=
  b ← lift (as_bucket x);
  v ← load b;
  ret (g acc v).


(** ** Bucket values *)

Definition zero_bucket : bucket := {| failure := 0; success := 0 |}.

Definition incr_failure (v : bucket) : bucket :=
  {| failure := wrap64 (failure v + 1); success := success v |}.

Definition incr_success (v : bucket) : bucket :=
  {| failure := failure v; success := wrap64 (success v + 1) |}.

(** ** Well-formed states

    What Go's types and allocator guarantee of a state: every ring value
    holds a pointer to a live bucket, no two ring elements share a bucket,
    and the bucket duration is an int64. *)

Definition ptrs_ok (h : list bucket) (r : Ring) : Prop :=
  Forall (fun x => exists a, x = Some a /\ is_Some (h !! a)) r.

Record wf (s : state) : Prop := {
  wf_ptrs : ptrs_ok (heap s) (buckets (self s));
  wf_nodup : NoDup (buckets (self s));
  wf_bucketTime : in_int64 (bucketTime (self s))
}.

(** The state after a write: heap [h], ring pointer [r], access time [t]. *)
Definition written (s : state) (h : list bucket) (r : Ring) (t : Time) : state :=
  {| heap := h;
     self := {| buckets := r;
                bucketTime := bucketTime (self s);
                lastAccess := t |} |}.

(** The common body of [Fail] and [Success], for proofs about both. *)
Definition write_with (bump : addr -> M state unit) (t_since t_now : Time)
  : M state unit :=
  r ← get_buckets;
  x ← lift (ring_Value r);
  b ← lift (as_bucket x);
  last ← get_lastAccess;
  bt ← get_bucketTime;
  b ← (if Since last t_since >? bt then
          r ← lift (ring_Next r);
          set_buckets r ;;
          x ← lift (ring_Value r);
          b ← lift (as_bucket x);
          bucket_Reset b ;;
          ret b
        else ret b);
  set_lastAccess t_now ;;
  bump b.

(** A bucket method that replaces the bucket behind its receiver by [f] of
    it. *)
Definition updates (bump : addr -> M state unit) (f : bucket -> bucket) : Prop :=
  forall b s,
    bump b s =
    match heap s !! b with
    | Some v => Ok (tt, {| heap := <[b := f v]> (heap s); self := self s |})
    | None => Panic DanglingPointer
    end.

(** ** Sequences of calls *)

Inductive op : Set :=
| OpFail (t_since t_now : Time)
| OpSuccess (t_since t_now : Time)
| OpFailures
| OpSuccesses
| OpErrorRate
| OpReset.

Definition exec_op (o : op) : M state unit :=
  match o with
  | OpFail t_since t_now => Fail t_since t_now
  | OpSuccess t_since t_now => Success t_since t_now
  | OpFailures => Failures ;; ret tt
  | OpSuccesses => Successes ;; ret tt
  | OpErrorRate => ErrorRate ;; ret tt
  | OpReset => Reset
  end.

Fixpoint exec (ops : list op) : M state unit :=
  match ops with
  | [] => ret tt
  | o :: rest => exec_op o ;; exec rest
  end.

(** The two writes, for statements about both. *)
Inductive write : Set := WFail | WSuccess.

Definition do_write (k : write) (t_since t_now : Time) : M state unit :=
  match k with
  | WFail => Fail t_since t_now
  | WSuccess => Success t_since t_now
  end.

(** What a write adds to the bucket it lands in. *)
Definition bump (k : write) (v : bucket) : bucket :=
  match k with
  | WFail => incr_failure v
  | WSuccess => incr_success v
  end.

(** The bucket the ring pointer is at. *)
Definition current (s : state) : option addr :=
  match buckets (self s) with
  | Some a :: _ => Some a
  | _ => None
  end.

(** [NewWindow] on heap [h], as a state. *)
Definition construct (windowTime windowBuckets : Z) (now : Time)
    (h : list bucket) : result state :=
  match NewWindow windowTime windowBuckets now h with
  | Ok (w, h') => Ok {| heap := h'; self := w |}
  | Panic p => Panic p
  end.

(** A window's life: construction, then the calls [ops]. *)
Definition session (windowTime windowBuckets : Z) (now : Time)
    (ops : list op) : result state :=
  match construct windowTime windowBuckets now [] with
  | Ok s => match exec ops s with
            | Ok (_, s') => Ok s'
            | Panic p => Panic p
            end
  | Panic p => Panic p
  end.

Definition reachable (s : state) : Prop :=
  exists windowTime windowBuckets now ops,
    session windowTime windowBuckets now ops = Ok s.

(** The heap after [Reset] has gone round the ring [r]. *)
Definition reset_all (h : list bucket) (r : Ring) : list bucket :=
  foldl (fun h x => match x with
                    | Some a => <[a := zero_bucket]> h
                    | None => h
                    end) h r.

(** ** Example windows *)

(** One second, in nanoseconds. *)
Definition sec : Z := 1000000000.

(** A window of three one-second buckets, written to in three different
    seconds. *)
Definition busy_calls : list op :=
  [OpFail 0 0; OpFail 0 0; OpSuccess 0 0;
   OpSuccess (2 * sec) (2 * sec); OpSuccess (2 * sec) (2 * sec);
   OpSuccess (2 * sec) (2 * sec);
   OpFail (4 * sec) (4 * sec); OpFail (4 * sec) (4 * sec);
   OpFail (4 * sec) (4 * sec); OpFail (4 * sec) (4 * sec)].

Definition busy : state :=
  {| heap := [{| failure := 2; success := 1 |};
              {| failure := 0; success := 3 |};
              {| failure := 4; success := 0 |}];
     self := {| buckets := [Some 2%nat; Some 0%nat; Some 1%nat];
                bucketTime := sec;
                lastAccess := 4 * sec |} |}.

(** Well-formedness of a state given in full. *)
Ltac solve_wf :=
  constructor; simpl;
  [ repeat (apply Forall_cons; split;
            [eexists; split; [reflexivity|eexists; reflexivity]|]);
    constructor
  | apply (bool_decide_unpack _); vm_compute; reflexivity
  | unfold in_int64, int64_min, int64_max; vm_compute; split; discriminate ].

(** ** The two outcomes of a write *)

(** No rotation: the pointer stays and the current bucket is bumped. *)
Definition stays (k : write) (s s' : state) : Prop :=
  exists a v,
    current s = Some a /\ heap s !! a = Some v /\
    buckets (self s') = buckets (self s) /\
    heap s' = <[a := bump k v]> (heap s).

(** Rotation: the pointer moves one element on, whose bucket is reset and
    then bumped. *)
Definition rotates (k : write) (s s' : state) : Prop :=
  exists a,
    ring_Next (buckets (self s)) = Ok (buckets (self s')) /\
    current s' = Some a /\
    heap s' = <[a := bump k zero_bucket]> (heap s).

(** ** Bursts of writes *)

(** A write with the two clock readings it makes. *)
Record call : Set := { kind : write; read_since : Time; read_now : Time }.

Definition call_op (c : call) : op :=
  match kind c with
  | WFail => OpFail (read_since c) (read_now c)
  | WSuccess => OpSuccess (read_since c) (read_now c)
  end.

(** Both clock readings of [c] fall in the [span] that starts at [last]. *)
Definition within_span (last : Time) (span : Z) (c : call) : Prop :=
  (last <= read_since c < last + span) /\ (last <= read_now c < last + span).

(** No call finds more than [bt] elapsed since the access before it. *)
Fixpoint calm (last : Time) (bt : Z) (cs : list call) : Prop :=
  match cs with
  | [] => True
  | c :: rest => Since last (read_since c) <= bt /\ calm (read_now c) bt rest
  end.

(** The access time after the calls [cs]. *)
Definition final_access (last : Time) (cs : list call) : Time :=
  foldl (fun _ c => read_now c) last cs.

(** The number of calls of kind [k]. *)
Fixpoint tally (k : write) (cs : list call) : Z :=
  match cs with
  | [] => 0
  | c :: rest =>
      (match kind c, k with
       | WFail, WFail | WSuccess, WSuccess => 1
       | _, _ => 0
       end) + tally k rest
  end.

(** ** A steady stream of failures

    A window of two one-second buckets, built at time 0, and a failure
    every 600 ms afterwards. *)
Definition ms : Z := 1000000.

Definition steady_calls : list call :=
  [{| kind := WFail; read_since := 600 * ms; read_now := 600 * ms |};
   {| kind := WFail; read_since := 1200 * ms; read_now := 1200 * ms |};
   {| kind := WFail; read_since := 1800 * ms; read_now := 1800 * ms |};
   {| kind := WFail; read_since := 2400 * ms; read_now := 2400 * ms |};
   {| kind := WFail; read_since := 3000 * ms; read_now := 3000 * ms |}].

(** The number of calls of [cs] made after time [t]. *)
Definition calls_after (t : Time) (cs : list call) : Z :=
  Z.of_nat (length (filter (fun c => t <? read_now c) cs)).

(** ** A fresh window and a burst

    Three one-second buckets built at time 0, and three calls within the
    first second. *)
Definition fresh : state :=
  {| heap := [zero_bucket; zero_bucket; zero_bucket];
     self := {| buckets := [Some 0%nat; Some 1%nat; Some 2%nat];
                bucketTime := sec;
                lastAccess := 0 |} |}.

Definition burst : list call :=
  [{| kind := WFail; read_since := 100 * ms; read_now := 100 * ms + 1 |};
   {| kind := WSuccess; read_since := 200 * ms; read_now := 200 * ms + 1 |};
   {| kind := WFail; read_since := 999 * ms; read_now := 999 * ms + 1 |}].

(** ** Concurrent writers

    Goroutines that each call [w.Fail()] once, interleaved by the scheduler
    one memory access at a time.  [bucketLock.Lock()] can be taken only
    while nobody holds the lock; the deferred [Unlock()] frees it.  Between
    the two, a goroutine goes through the body of [Fail] in the steps
    below ([b.failure += 1] is a load followed by a store). *)

Inductive pc : Set :=
| AtLock                      (* before w.bucketLock.Lock() *)
| AtRead                      (* b = w.buckets.Value *)
| AtCheck (b : nat)           (* if time.Since(w.lastAccess) > w.bucketTime *)
| AtNext                      (* w.buckets = w.buckets.Next() *)
| AtValue                     (* b = w.buckets.Value *)
| AtReset (b : nat)           (* b.Reset() *)
| AtStamp (b : nat)           (* w.lastAccess = time.Now() *)
| AtLoad (b : nat)            (* read b.failure *)
| AtStore (b : nat) (tmp : Z) (* b.failure = tmp + 1 *)
| AtUnlock                    (* the deferred w.bucketLock.Unlock() *)
| Finished.

Record goroutine : Set := {
  since_reading : Time;   (* what its time.Since call reads *)
  now_reading : Time;     (* what its time.Now call reads *)
  ctl : pc
}.

Definition goto (g : goroutine) (p : pc) : goroutine :=
  {| since_reading := since_reading g; now_reading := now_reading g; ctl := p |}.

Record config : Set := {
  shared : state;
  lock : option nat;          (* the goroutine holding bucketLock *)
  routines : list goroutine
}.

(** One step of the body of [Fail] between [Lock] and [Unlock]. *)
Definition local_step (t_since t_now : Time) (p : pc) : option (M state pc) :=
  match p with
  | AtLock | AtUnlock | Finished => None
  | AtRead =>
      Some (r ← get_buckets;
            x ← lift (ring_Value r);
            b ← lift (as_bucket x);
            ret (AtCheck b))
  | AtCheck b =>
      Some (last ← get_lastAccess;
            bt ← get_bucketTime;
            if Since last t_since >? bt then ret AtNext else ret (AtStamp b))
  | AtNext =>
      Some (r ← get_buckets;
            r ← lift (ring_Next r);
            set_buckets r ;;
            ret AtValue)
  | AtValue =>
      Some (r ← get_buckets;
            x ← lift (ring_Value r);
            b ← lift (as_bucket x);
            ret (AtReset b))
  | AtReset b => Some (bucket_Reset b ;; ret (AtStamp b))
  | AtStamp b => Some (set_lastAccess t_now ;; ret (AtLoad b))
  | AtLoad b => Some (v ← load b; ret (AtStore b (failure v)))
  | AtStore b tmp => Some (set_failure b (wrap64 (tmp + 1)) ;; ret AtUnlock)
  end.

(** The scheduler picks goroutine [i] for one step. *)
Inductive step : config -> config -> Prop :=
| step_lock c i g :
    routines c !! i = Some g ->
    ctl g = AtLock ->
    lock c = None ->
    step c {| shared := shared c;
              lock := Some i;
              routines := <[i := goto g AtRead]> (routines c) |}
| step_local c i g m p' s' :
    routines c !! i = Some g ->
    local_step (since_reading g) (now_reading g) (ctl g) = Some m ->
    m (shared c) = Ok (p', s') ->
    step c {| shared := s';
              lock := lock c;
              routines := <[i := goto g p']> (routines c) |}
| step_unlock c i g :
    routines c !! i = Some g ->
    ctl g = AtUnlock ->
    step c {| shared := shared c;
              lock := None;
              routines := <[i := goto g Finished]> (routines c) |}.

(** Executions, with their number of steps. *)
Inductive steps : nat -> config -> config -> Prop :=
| steps_none c : steps 0 c c
| steps_more n c c' c'' : step c c' -> steps n c' c'' -> steps (S n) c c''.

(** The goroutines about to call [Fail], with the clock readings each of
    them will make. *)
Definition spawn (s : state) (clocks : list (Time * Time)) : config :=
  {| shared := s;
     lock := None;
     routines := (fun ck => {| since_reading := fst ck;
                               now_reading := snd ck;
                               ctl := AtLock |}) <$> clocks |}.

Definition all_finished (c : config) : Prop :=
  Forall (fun g => ctl g = Finished) (routines c).

(** A goroutine running on its own, from the step after [Lock]. *)
Fixpoint run_alone (fuel : nat) (t_since t_now : Time) (p : pc) : M state pc :=
  match fuel with
  | O => ret p
  | S fuel' =>
      match local_step t_since t_now p with
      | Some m => p' ← m; run_alone fuel' t_since t_now p'
      | None => ret p
      end
  end.

(** How far a goroutine is. *)
Definition rank (p : pc) : nat :=
  match p with
  | AtLock => 0
  | AtRead => 1
  | AtCheck _ => 2
  | AtNext => 3
  | AtValue => 4
  | AtReset _ => 5
  | AtStamp _ => 6
  | AtLoad _ => 7
  | AtStore _ _ => 8
  | AtUnlock => 9
  | Finished => 10
  end.

Definition progress (gs : list goroutine) : nat :=
  foldr (fun g n => (rank (ctl g) + n)%nat) 0%nat gs.

(** The goroutines whose increment is in the bucket. *)
Definition credit (p : pc) : Z :=
  match p with
  | AtUnlock | Finished => 1
  | _ => 0
  end.



(** Both clock readings [ck] of a goroutine fall in the [span] that starts
    at [last]. *)
Definition readings_within (last : Time) (span : Z) (ck : Time * Time) : Prop :=
  (last <= fst ck < last + span) /\ (last <= snd ck < last + span).

(** The step of goroutine [i], when it can make one. *)
Definition sched_step (i : nat) (c : config) : option config :=
  match routines c !! i with
  | None => None
  | Some g =>
      let moved p s l :=
        Some {| shared := s; lock := l;
                routines := <[i := goto g p]> (routines c) |} in
      match ctl g with
      | AtLock => match lock c with
                  | None => moved AtRead (shared c) (Some i)
                  | Some _ => None
                  end
      | AtUnlock => moved Finished (shared c) None
      | p => match local_step (since_reading g) (now_reading g) p with
             | Some m => match m (shared c) with
                         | Ok (p', s') => moved p' s' (lock c)
                         | Panic _ => None
                         end
             | None => None
             end
      end
  end.

(** The execution that a schedule, the list of the goroutines picked,
    gives. *)
Fixpoint run_schedule (sched : list nat) (c : config) : option config :=
  match sched with
  | [] => Some c
  | i :: rest => match sched_step i c with
                 | Some c' => run_schedule rest c'
                 | None => None
                 end
  end.

(** Three writers on the fresh window; the second gets the lock first. *)
Definition three_clocks : list (Time * Time) :=
  [(100 * ms, 100 * ms + 1); (50 * ms, 60 * ms); (999 * ms, 999 * ms)].

Definition three_schedule : list nat :=
  [1; 1; 1; 1; 1; 1; 1; 2; 2; 2; 2; 2; 2; 2; 0; 0; 0; 0; 0; 0; 0]%nat.

Definition three_final : config :=
  Eval vm_compute in
    match run_schedule three_schedule (spawn fresh three_clocks) with
    | Some c => c
    | None => spawn fresh three_clocks
    end.

(** * Further definitions *)

(** ** Writes, seen on the buckets in ring order *)

(** A write that does not rotate: the first bucket is bumped. *)
Definition keep_write (k : write) (vs : list bucket) : list bucket :=
  match vs with
  | [] => []
  | v :: stale => bump k v :: stale
  end.

(** A write that rotates: the list turns by one and its new first bucket
    is replaced by a bumped empty one. *)
Definition rot_write (k : write) (vs : list bucket) : list bucket :=
  match vs with
  | [] => []
  | v :: rest =>
      match rest ++ [v] with
      | [] => []
      | _ :: t => bump k zero_bucket :: t
      end
  end.

(** What a write of kind [k] adds to the total of kind [k']. *)
Definition counts_as (k k' : write) : Z :=
  match k, k' with
  | WFail, WFail | WSuccess, WSuccess => 1
  | _, _ => 0
  end.

(** Every call finds more than [bt] elapsed since the access before it. *)
Fixpoint stormy (last : Time) (bt : Z) (cs : list call) : Prop :=
  match cs with
  | [] => True
  | c :: rest => Since last (read_since c) > bt /\ stormy (read_now c) bt rest
  end.

(** The number of writes of kind [k] among the calls [ops]. *)
Fixpoint writes_of (k : write) (ops : list op) : Z :=
  match ops with
  | [] => 0
  | o :: rest =>
      (match o, k with
       | OpFail _ _, WFail | OpSuccess _ _, WSuccess => 1
       | _, _ => 0
       end) + writes_of k rest
  end.

(** No counter below zero. *)
Definition nonneg (v : bucket) : Prop := 0 <= failure v /\ 0 <= success v.

(** [r'] is the ring [r] seen from another of its elements. *)
Definition rotation_of (r r' : Ring) : Prop :=
  exists l1 l2, r = l1 ++ l2 /\ r' = l2 ++ l1.

(** The ring turned by one element, as [Next] does. *)
Definition turn (r : Ring) : Ring :=
  match r with
  | [] => []
  | x :: rest => rest ++ [x]
  end.

(** The buckets a burst of rotating writes leaves behind: the one now
    current, and the ones it rotated away from, oldest first. *)
Definition trail_step (st : bucket * list bucket) (c : call)
  : bucket * list bucket :=
  (bump (kind c) zero_bucket, snd st ++ [fst st]).

(** ** More example calls *)

(** Three calls on [busy], two seconds apart. *)
Definition spaced_calls : list call :=
  [{| kind := WFail; read_since := 6 * sec; read_now := 6 * sec |};
   {| kind := WSuccess; read_since := 8 * sec; read_now := 8 * sec + 5 |};
   {| kind := WFail; read_since := 10 * sec + 6; read_now := 10 * sec + 7 |}].

Definition mixed_ops : list op :=
  [OpFail (5 * sec) (5 * sec); OpFailures; OpSuccess (7 * sec) (7 * sec);
   OpReset; OpFail (7 * sec) (7 * sec); OpErrorRate].

(** 1.0 *)
Definition float64_one : float64 := S754_finite false 4503599627370496 (-52).

(** The buckets of [busy], in ring order. *)
Definition busy_buckets : list bucket :=
  [{| failure := 4; success := 0 |}; {| failure := 2; success := 1 |};
   {| failure := 0; success := 3 |}].

(** ** A second window

    Built in the heap of [busy], when [busy] has been used. *)
Definition second : state :=
  Eval vm_compute in
    match construct (2 * sec) 2 (5 * sec) (heap busy) with
    | Ok s => s
    | Panic _ => busy
    end.

Definition second_ops : list op :=
  [OpFail (5 * sec) (5 * sec); OpSuccess (7 * sec) (7 * sec);
   OpSuccess (9 * sec) (9 * sec); OpReset; OpFail (9 * sec) (9 * sec)].

Definition second_after : state :=
  Eval vm_compute in
    match exec second_ops second with
    | Ok (_, s) => s
    | Panic _ => second
    end.

(** ** The order in which goroutines take the lock *)

(** The clock readings a goroutine makes. *)
Definition readings (g : goroutine) : Time * Time :=
  (since_reading g, now_reading g).

(** The call of [Fail] that makes the clock readings [ck]. *)
Definition fail_op (ck : Time * Time) : op := OpFail (fst ck) (snd ck).

(** The readings of the goroutines whose call has been made in full. *)
Fixpoint credited_readings (gs : list goroutine) : list (Time * Time) :=
  match gs with
  | [] => []
  | g :: rest =>
      if credit (ctl g) =? 1 then readings g :: credited_readings rest
      else credited_readings rest
  end.

(** A configuration of an execution that started from [s0]: the calls made
    in full so far, in the order [order] in which their goroutines took
    the lock, give the state [s_lin] when made one after the other; the
    shared state is [s_lin], or as far from it as the goroutine that holds
    the lock has got in the body of [Fail]. *)
Record linearized (s0 : state) (clocks : list (Time * Time)) (c : config)
  : Prop := {
  lin_clocks : readings <$> routines c = clocks;
  lin_order : exists order s_lin,
      order ≡ₚ credited_readings (routines c) /\
      exec (fail_op <$> order) s0 = Ok (tt, s_lin) /\
      match lock c with
      | None =>
          shared c = s_lin /\
          forall i g, routines c !! i = Some g ->
                      ctl g = AtLock \/ ctl g = Finished
      | Some i =>
          exists g,
            routines c !! i = Some g /\
            (forall j g', j <> i -> routines c !! j = Some g' ->
                          ctl g' = AtLock \/ ctl g' = Finished) /\
            ((ctl g = AtUnlock /\ shared c = s_lin) \/
             (credit (ctl g) = 0 /\ ctl g <> AtLock /\
              exists k, run_alone k (since_reading g) (now_reading g) AtRead
                          s_lin = Ok (ctl g, shared c)))
      end
}.

(** The call of [Fail] that makes the clock readings [ck], as a [call]. *)
Definition fail_call (ck : Time * Time) : call :=
  {| kind := WFail; read_since := fst ck; read_now := snd ck |}.

(** Three writers on [busy], which was last accessed at 4 s: they arrive
    together, after 6 s. *)
Definition late_clocks : list (Time * Time) :=
  [(6 * sec + 300 * ms, 6 * sec + 301 * ms);
   (6 * sec, 6 * sec + 1);
   (6 * sec + 900 * ms, 6 * sec + 900 * ms)].

(** The second gets the lock first and rotates; the others follow. *)
Definition late_schedule : list nat :=
  (replicate 10 1 ++ replicate 7 2 ++ replicate 7 0)%nat.

Definition late_final : config :=
  Eval vm_compute in
    match run_schedule late_schedule (spawn busy late_clocks) with
    | Some c => c
    | None => spawn busy late_clocks
    end.

(** A burst on [busy], which was last accessed at 4 s and has one-second
    buckets: three calls within the second that follows. *)
Definition busy_burst : list call :=
  [{| kind := WFail; read_since := 4 * sec + 100 * ms;
      read_now := 4 * sec + 100 * ms + 1 |};
   {| kind := WSuccess; read_since := 4 * sec + 200 * ms;
      read_now := 4 * sec + 200 * ms + 1 |};
   {| kind := WFail; read_since := 4 * sec + 999 * ms;
      read_now := 4 * sec + 999 * ms + 1 |}].

(** One failure recorded on [busy] half a second after its last access. *)
Definition one_more : list call :=
  [{| kind := WFail; read_since := 4 * sec + 500 * ms;
      read_now := 4 * sec + 500 * ms |}].

(** * Properties *)

(** ** int64 arithmetic *)

Lemma wrap64_range z : in_int64 (wrap64 z).
Proof.
  unfold in_int64, wrap64, int64_min, int64_max.
  pose proof (Z.mod_pos_bound (z + 2 ^ 63) (2 ^ 64) ltac:(lia)). lia.
Qed.

Lemma wrap64_id z : in_int64 z -> wrap64 z = z.
Proof.
  unfold in_int64, wrap64, int64_min, int64_max. intros H.
  rewrite Z.mod_small by lia. lia.
Qed.

Lemma wrap64_add_l a b : wrap64 (wrap64 a + b) = wrap64 (a + b).
Proof.
  unfold wrap64.
  replace ((a + 2 ^ 63) mod 2 ^ 64 - 2 ^ 63 + b + 2 ^ 63)
    with ((a + 2 ^ 63) mod 2 ^ 64 + b) by lia.
  rewrite Zplus_mod_idemp_l. do 2 f_equal. lia.
Qed.

Lemma wrap64_add_r a b : wrap64 (a + wrap64 b) = wrap64 (a + b).
Proof. rewrite Z.add_comm, wrap64_add_l. f_equal. lia. Qed.

Lemma wrap64_idemp a : wrap64 (wrap64 a) = wrap64 a.
Proof. apply wrap64_id, wrap64_range. Qed.

Lemma sat64_range z : in_int64 (sat64 z).
Proof. unfold in_int64, sat64, int64_min, int64_max. lia. Qed.

Lemma sat64_le z bound : in_int64 bound -> z <= bound -> sat64 z <= bound.
Proof. unfold in_int64, sat64, int64_min, int64_max. lia. Qed.

Lemma ring_Do_cons {S A} (f : Value -> A -> M S A) x rest acc s :
  ring_Do (x :: rest) f acc s =
  match f x acc s with
  | Ok (a, s') => ring_Do rest f a s'
  | Panic p => Panic p
  end.
Proof. reflexivity. Qed.

Lemma ring_Do_ext {S A} (f f' : Value -> A -> M S A) r acc s :
  (forall x a s0, f x a s0 = f' x a s0) ->
  ring_Do r f acc s = ring_Do r f' acc s.
Proof.
  intros Hext. revert acc s.
  induction r as [|x rest IH]; intros acc s; [done|].
  rewrite !ring_Do_cons, Hext.
  destruct (f' x acc s) as [[a s']|p]; [apply IH|done].
Qed.

Lemma reader_eq {A} (g : A -> bucket -> A) x acc s :
  reader g x acc s =
  match deref (heap s) x with
  | Ok v => Ok (g acc v, s)
  | Panic p => Panic p
  end.
Proof.
  unfold reader. munfold. unfold as_bucket, load, deref.
  destruct x as [a|]; [|done]. by destruct (heap s !! a).
Qed.

Lemma ring_Do_reader {A} (g : A -> bucket -> A) r acc s :
  ring_Do r (reader g) acc s =
  match counts (heap s) r with
  | Ok vs => Ok (foldl g acc vs, s)
  | Panic p => Panic p
  end.
Proof.
  revert acc. induction r as [|x rest IH]; intros acc; [done|].
  rewrite ring_Do_cons, reader_eq. simpl.
  destruct (deref (heap s) x) as [v|]; [|done].
  rewrite IH. by destruct (counts (heap s) rest).
Qed.

Lemma foldl_wrap_sum (f : bucket -> Z) vs a :
  foldl (fun acc v => wrap64 (acc + f v)) (wrap64 a) vs = wrap64 (a + sumZ f vs).
Proof.
  revert a. induction vs as [|v vs IH]; intros a; simpl.
  - by rewrite Z.add_0_r.
  - rewrite wrap64_add_l, IH. f_equal. lia.
Qed.

Lemma sumZ_app f vs ws : sumZ f (vs ++ ws) = sumZ f vs + sumZ f ws.
Proof. induction vs as [|v vs IH]; simpl; [done|]. rewrite IH. lia. Qed.

Lemma Failures_counts s :
  Failures s =
  match counts (heap s) (buckets (self s)) with
  | Ok vs => Ok (wrap64 (sumZ failure vs), s)
  | Panic p => Panic p
  end.
Proof.
  unfold Failures. munfold.
  rewrite (ring_Do_ext _ (reader (fun acc v => wrap64 (acc + failure v))))
    by done.
  rewrite ring_Do_reader.
  destruct (counts _ _) as [vs|]; [|done].
  change 0 with (wrap64 0) at 1. by rewrite foldl_wrap_sum.
Qed.

Lemma Successes_counts s :
  Successes s =
  match counts (heap s) (buckets (self s)) with
  | Ok vs => Ok (wrap64 (sumZ success vs), s)
  | Panic p => Panic p
  end.
Proof.
  unfold Successes. munfold.
  rewrite (ring_Do_ext _ (reader (fun acc v => wrap64 (acc + success v))))
    by done.
  rewrite ring_Do_reader.
  destruct (counts _ _) as [vs|]; [|done].
  change 0 with (wrap64 0) at 1. by rewrite foldl_wrap_sum.
Qed.

(** ** The bucket methods *)

Lemma set_failure_eq b x s :
  set_failure b x s =
  match heap s !! b with
  | Some v => Ok (tt, {| heap := <[b := {| failure := x; success := success v |}]> (heap s);
                         self := self s |})
  | None => Panic DanglingPointer
  end.
Proof.
  unfold set_failure. munfold. unfold load, store.
  destruct (heap s !! b) as [v|] eqn:E; simpl; [|done]. by rewrite E.
Qed.

Lemma set_success_eq b x s :
  set_success b x s =
  match heap s !! b with
  | Some v => Ok (tt, {| heap := <[b := {| failure := failure v; success := x |}]> (heap s);
                         self := self s |})
  | None => Panic DanglingPointer
  end.
Proof.
  unfold set_success. munfold. unfold load, store.
  destruct (heap s !! b) as [v|] eqn:E; simpl; [|done]. by rewrite E.
Qed.

Lemma bucket_Reset_updates : updates bucket_Reset (fun _ => zero_bucket).
Proof.
  intros b s. unfold bucket_Reset. munfold.
  rewrite set_failure_eq.
  destruct (heap s !! b) as [v|] eqn:E; [|done].
  rewrite set_success_eq. simpl.
  rewrite list_lookup_insert_eq by (by apply lookup_lt_is_Some; eexists).
  by rewrite list_insert_insert_eq.
Qed.

Lemma bucket_Fail_updates : updates bucket_Fail incr_failure.
Proof.
  intros b s. unfold bucket_Fail. munfold. unfold load.
  destruct (heap s !! b) as [v|] eqn:E; [|done].
  rewrite set_failure_eq. by rewrite E.
Qed.

Lemma bucket_Success_updates : updates bucket_Success incr_success.
Proof.
  intros b s. unfold bucket_Success. munfold. unfold load.
  destruct (heap s !! b) as [v|] eqn:E; [|done].
  rewrite set_success_eq. by rewrite E.
Qed.

#[local] Arguments bucket_Reset : simpl never.

(** ** The write path *)

Lemma Fail_write_with t1 t2 : Fail t1 t2 = write_with bucket_Fail t1 t2.
Proof. reflexivity. Qed.

Lemma Success_write_with t1 t2 : Success t1 t2 = write_with bucket_Success t1 t2.
Proof. reflexivity. Qed.

(** No rotation: the current bucket is bumped, the access time updated. *)
Lemma write_with_keep bump f t1 t2 s a rest v :
  updates bump f ->
  buckets (self s) = Some a :: rest ->
  heap s !! a = Some v ->
  Since (lastAccess (self s)) t1 <= bucketTime (self s) ->
  write_with bump t1 t2 s =
  Ok (tt, written s (<[a := f v]> (heap s)) (buckets (self s)) t2).
Proof.
  intros Hup Hr Ha Hle. unfold write_with. munfold.
  rewrite Hr. simpl.
  destruct (Z.gtb_spec (Since (lastAccess (self s)) t1) (bucketTime (self s)));
    [lia|].
  rewrite Hup. simpl. rewrite Ha. unfold written. by rewrite Hr.
Qed.

(** Rotation: the pointer moves to the next element, whose bucket is reset
    and then bumped. *)
Lemma write_with_rotate bump f t1 t2 s a0 rest a r' :
  updates bump f ->
  buckets (self s) = Some a0 :: rest ->
  rest ++ [Some a0] = Some a :: r' ->
  is_Some (heap s !! a) ->
  Since (lastAccess (self s)) t1 > bucketTime (self s) ->
  write_with bump t1 t2 s =
  Ok (tt, written s (<[a := f zero_bucket]> (heap s)) (rest ++ [Some a0]) t2).
Proof.
  intros Hup Hr Hnext [v Ha] Hgt. unfold write_with. munfold.
  rewrite Hr. simpl.
  destruct (Z.gtb_spec (Since (lastAccess (self s)) t1) (bucketTime (self s)));
    [|lia].
  rewrite Hnext. simpl.
  rewrite bucket_Reset_updates. simpl. rewrite Ha.
  rewrite Hup. simpl.
  rewrite list_lookup_insert_eq by (by apply lookup_lt_is_Some; eexists).
  by rewrite list_insert_insert_eq.
Qed.

(** ** Rings and heaps *)

Lemma deref_insert_ne h a v x :
  x <> Some a -> deref (<[a := v]> h) x = deref h x.
Proof.
  intros Hne. destruct x as [b|]; [|done]. simpl.
  rewrite list_lookup_insert_ne; [done|]. congruence.
Qed.

Lemma counts_insert_notin h a v r :
  Some a ∉ r -> counts (<[a := v]> h) r = counts h r.
Proof.
  induction r as [|x rest IH]; intros Hnotin; [done|].
  apply not_elem_of_cons in Hnotin as [Hx Hrest]. simpl.
  rewrite deref_insert_ne by done. by rewrite IH.
Qed.

Lemma counts_snoc h r x :
  counts h (r ++ [x]) =
  match counts h r with
  | Ok vs => match deref h x with
             | Ok v => Ok (vs ++ [v])
             | Panic p => Panic p
             end
  | Panic p => Panic p
  end.
Proof.
  induction r as [|y rest IH]; simpl.
  - by destruct (deref h x).
  - destruct (deref h y) as [w|]; [|done]. rewrite IH.
    destruct (counts h rest) as [vs|]; [|done]. by destruct (deref h x).
Qed.

Lemma counts_ok h r :
  ptrs_ok h r -> exists vs, counts h r = Ok vs /\ length vs = length r.
Proof.
  induction 1 as [|x rest (a & -> & v & Ha) _ (vs & IH & Hlen)]; simpl.
  - by exists [].
  - rewrite Ha, IH. exists (v :: vs). simpl. by rewrite Hlen.
Qed.

Lemma ptrs_ok_insert h a v r : ptrs_ok h r -> ptrs_ok (<[a := v]> h) r.
Proof.
  intros H. eapply Forall_impl; [exact H|].
  intros x (b & -> & Hb). exists b. split; [done|].
  apply lookup_lt_is_Some. rewrite length_insert. by apply lookup_lt_is_Some.
Qed.

Lemma ptrs_ok_rotate h x rest : ptrs_ok h (x :: rest) -> ptrs_ok h (rest ++ [x]).
Proof.
  unfold ptrs_ok. intros H. inversion H as [|? ? Hx Hrest]; subst.
  apply Forall_app. split; [done|]. by apply Forall_singleton.
Qed.

Lemma NoDup_rotate {A} (x : A) rest : NoDup (x :: rest) -> NoDup (rest ++ [x]).
Proof.
  intros H. apply NoDup_cons in H as [Hx Hrest].
  apply NoDup_app. split_and!; [done| |apply NoDup_singleton].
  intros y Hy Hin. apply list_elem_of_singleton in Hin. by subst.
Qed.

(** ** Well-formedness is kept *)

Lemma wf_written s h r t :
  wf s ->
  length h = length (heap s) ->
  (buckets (self s) = r \/ ring_Next (buckets (self s)) = Ok r) ->
  wf (written s h r t).
Proof.
  intros [Hp Hn Hb] Hlen Hr.
  assert (Hp' : ptrs_ok h (buckets (self s))).
  { eapply Forall_impl; [exact Hp|]. intros x (b & -> & Hb'). exists b.
    split; [done|]. apply lookup_lt_is_Some. rewrite Hlen.
    by apply lookup_lt_is_Some. }
  destruct Hr as [<-|Hr]; [by constructor|].
  destruct (buckets (self s)) as [|x rest]; [done|].
  injection Hr as <-.
  constructor; simpl; [by apply ptrs_ok_rotate|by apply NoDup_rotate|done].
Qed.

Lemma wf_head s :
  wf s -> buckets (self s) <> [] ->
  exists a rest v, buckets (self s) = Some a :: rest /\ heap s !! a = Some v.
Proof.
  intros [Hp _ _] Hne.
  destruct (buckets (self s)) as [|x rest]; [done|].
  apply Forall_cons in Hp as [(a & -> & v & Ha) _]. by exists a, rest, v.
Qed.

Lemma wf_next s a0 rest :
  wf s -> buckets (self s) = Some a0 :: rest ->
  exists a r', rest ++ [Some a0] = Some a :: r' /\ is_Some (heap s !! a).
Proof.
  intros [Hp _ _] Hr. rewrite Hr in Hp. apply ptrs_ok_rotate in Hp.
  destruct (rest ++ [Some a0]) as [|x r'] eqn:E.
  { by destruct rest. }
  apply Forall_cons in Hp as [(a & -> & Ha) _]. by exists a, r'.
Qed.

Lemma do_write_eq k t1 t2 :
  do_write k t1 t2 =
  write_with (match k with WFail => bucket_Fail | WSuccess => bucket_Success end)
    t1 t2.
Proof. by destruct k. Qed.

Lemma bump_updates k :
  updates (match k with WFail => bucket_Fail | WSuccess => bucket_Success end)
    (bump k).
Proof. destruct k; [apply bucket_Fail_updates|apply bucket_Success_updates]. Qed.

Lemma write_keep k t1 t2 s a rest v :
  buckets (self s) = Some a :: rest ->
  heap s !! a = Some v ->
  Since (lastAccess (self s)) t1 <= bucketTime (self s) ->
  do_write k t1 t2 s =
  Ok (tt, written s (<[a := bump k v]> (heap s)) (buckets (self s)) t2).
Proof.
  intros. rewrite do_write_eq.
  eapply write_with_keep; eauto using bump_updates.
Qed.

Lemma write_rotate k t1 t2 s a0 rest a r' :
  buckets (self s) = Some a0 :: rest ->
  rest ++ [Some a0] = Some a :: r' ->
  is_Some (heap s !! a) ->
  Since (lastAccess (self s)) t1 > bucketTime (self s) ->
  do_write k t1 t2 s =
  Ok (tt, written s (<[a := bump k zero_bucket]> (heap s)) (rest ++ [Some a0]) t2).
Proof.
  intros. rewrite do_write_eq.
  eapply write_with_rotate; eauto using bump_updates.
Qed.

(** A write on a well-formed window with buckets returns, and keeps the
    window so. *)
Lemma write_total k t1 t2 s :
  wf s -> buckets (self s) <> [] ->
  exists s', do_write k t1 t2 s = Ok (tt, s') /\ wf s' /\ buckets (self s') <> [].
Proof.
  intros Hwf Hne.
  destruct (wf_head s Hwf Hne) as (a0 & rest & v & Hr & Ha).
  destruct (Z_le_gt_dec (Since (lastAccess (self s)) t1) (bucketTime (self s)))
    as [Hle|Hgt].
  - eexists. split; [by eapply write_keep|]. split.
    + apply wf_written; [done|by rewrite length_insert|by left].
    + simpl. by rewrite Hr.
  - destruct (wf_next s a0 rest Hwf Hr) as (a & r' & Hnext & Hsome).
    eexists. split; [by eapply write_rotate|]. split.
    + apply wf_written; [done|by rewrite length_insert|].
      right. by rewrite Hr.
    + simpl. by rewrite Hnext.
Qed.

(** ** Reset *)

Lemma ring_Do_reset r h w :
  ptrs_ok h r ->
  ring_Do r (fun x _ => b ← lift (as_bucket x); bucket_Reset b) tt
    {| heap := h; self := w |} =
  Ok (tt, {| heap := reset_all h r; self := w |}).
Proof.
  revert h. induction r as [|x rest IH]; intros h Hp; [done|].
  inversion Hp as [|? ? (a & -> & v & Ha) Hrest]; subst.
  rewrite ring_Do_cons. munfold. simpl.
  rewrite bucket_Reset_updates. simpl. rewrite Ha.
  rewrite IH by (by apply ptrs_ok_insert). done.
Qed.

Lemma Reset_eq s :
  ptrs_ok (heap s) (buckets (self s)) ->
  Reset s = Ok (tt, {| heap := reset_all (heap s) (buckets (self s));
                       self := self s |}).
Proof.
  intros Hp. unfold Reset. munfold. destruct s as [h w]. simpl in *.
  by apply ring_Do_reset.
Qed.

Lemma length_reset_all h r : length (reset_all h r) = length h.
Proof.
  revert h. induction r as [|[a|] rest IH]; intros h; simpl; [done| |done].
  by rewrite IH, length_insert.
Qed.

Lemma reset_all_notin h r a :
  Some a ∉ r -> reset_all h r !! a = h !! a.
Proof.
  revert h. induction r as [|x rest IH]; intros h Hnotin; [done|].
  apply not_elem_of_cons in Hnotin as [Hx Hrest]. simpl.
  destruct x as [b|]; [|by apply IH].
  rewrite IH by done. apply list_lookup_insert_ne. congruence.
Qed.

Lemma reset_all_in h r a :
  Some a ∈ r -> is_Some (h !! a) -> reset_all h r !! a = Some zero_bucket.
Proof.
  revert h. induction r as [|x rest IH]; intros h Hin Hsome.
  { by apply elem_of_nil in Hin. }
  simpl. destruct (decide (Some a ∈ rest)) as [Hrest|Hrest].
  - apply IH; [done|]. destruct x as [b|]; [|done].
    apply lookup_lt_is_Some. rewrite length_insert. by apply lookup_lt_is_Some.
  - apply elem_of_cons in Hin as [<-|Hin]; [|done].
    rewrite reset_all_notin by done.
    apply list_lookup_insert_eq. by apply lookup_lt_is_Some.
Qed.

Lemma counts_reset_all h r :
  ptrs_ok h r ->
  counts (reset_all h r) r = Ok (replicate (length r) zero_bucket).
Proof.
  intros Hp.
  assert (Hall : forall x, x ∈ r ->
            deref (reset_all h r) x = Ok zero_bucket).
  { intros x Hx. pose proof Hp as Hp'.
    unfold ptrs_ok in Hp'. rewrite Forall_forall in Hp'.
    destruct (Hp' x Hx) as (a & -> & Ha). simpl.
    by rewrite reset_all_in. }
  clear Hp. revert Hall. generalize (reset_all h r). intros h'.
  induction r as [|x rest IH]; intros Hall; [done|]. simpl.
  rewrite Hall by apply list_elem_of_here.
  rewrite IH; [done|]. intros y Hy. apply Hall. by apply list_elem_of_further.
Qed.

Lemma sumZ_replicate_zero f n :
  f zero_bucket = 0 -> sumZ f (replicate n zero_bucket) = 0.
Proof. intros Hf. induction n as [|n IH]; simpl; [done|]. lia. Qed.

Lemma wf_reset s :
  wf s ->
  wf {| heap := reset_all (heap s) (buckets (self s)); self := self s |}.
Proof.
  intros [Hp Hn Hb]. constructor; simpl; [|done|done].
  eapply Forall_impl; [exact Hp|]. intros x (b & -> & Hb'). exists b.
  split; [done|]. apply lookup_lt_is_Some. rewrite length_reset_all.
  by apply lookup_lt_is_Some.
Qed.

(** ** Reads *)

Lemma foldl_rate vs t f :
  foldl (fun '(total, failures) v =>
           (wrap64 (total + wrap64 (failure v + success v)),
            wrap64 (failures + failure v)))
        (wrap64 t, wrap64 f) vs =
  (wrap64 (t + (sumZ failure vs + sumZ success vs)),
   wrap64 (f + sumZ failure vs)).
Proof.
  revert t f. induction vs as [|v vs IH]; intros t f; simpl.
  - by rewrite !Z.add_0_r.
  - rewrite wrap64_add_r, !wrap64_add_l, IH. f_equal; f_equal; lia.
Qed.

Lemma ErrorRate_counts s :
  ErrorRate s =
  match counts (heap s) (buckets (self s)) with
  | Ok vs =>
      let failures := wrap64 (sumZ failure vs) in
      let total := wrap64 (sumZ failure vs + sumZ success vs) in
      Ok (if total =? 0 then S754_zero false
          else float64_div (float64_of_int64 failures) (float64_of_int64 total),
          s)
  | Panic p => Panic p
  end.
Proof.
  unfold ErrorRate. munfold.
  rewrite (ring_Do_ext _
             (reader (fun '(total, failures) v =>
                        (wrap64 (total + wrap64 (failure v + success v)),
                         wrap64 (failures + failure v))))).
  2: { by intros x [t f] s0. }
  rewrite ring_Do_reader.
  destruct (counts _ _) as [vs|]; [|done].
  change (0, 0) with (wrap64 0, wrap64 0). rewrite foldl_rate, !Z.add_0_l.
  by destruct (wrap64 (sumZ failure vs + sumZ success vs) =? 0).
Qed.

(** ** Construction *)

Lemma NewWindow_loop_eq k done h :
  NewWindow_loop k (replicate k None ++ done) h =
  Ok (done ++ (Some <$> seq (length h) k), h ++ replicate k zero_bucket).
Proof.
  revert done h. induction k as [|k IH]; intros done h.
  - simpl. unfold ret. by rewrite !app_nil_r.
  - simpl. munfold. unfold new_bucket. simpl.
    rewrite <- (app_assoc (replicate k None) done). rewrite IH.
    rewrite length_app. simpl. rewrite Nat.add_1_r.
    by rewrite <- !app_assoc.
Qed.

Lemma NewWindow_pos windowTime n now h :
  1 <= n ->
  NewWindow windowTime n now h =
  Ok ({| buckets := Some <$> seq (length h) (Z.to_nat n);
         bucketTime := wrap64 (Z.quot windowTime n);
         lastAccess := now |},
      h ++ replicate (Z.to_nat n) zero_bucket).
Proof.
  intros Hn. unfold NewWindow, ring_New, ring_Len. munfold.
  destruct (Z.leb_spec n 0); [lia|].
  rewrite length_replicate.
  rewrite <- (app_nil_r (replicate (Z.to_nat n) None)) at 1.
  rewrite NewWindow_loop_eq. simpl.
  by destruct (Z.eqb_spec n 0); [lia|].
Qed.

Lemma NewWindow_zero windowTime now h :
  NewWindow windowTime 0 now h = Panic DivideByZero.
Proof. reflexivity. Qed.

Lemma NewWindow_neg windowTime n now h :
  n < 0 ->
  NewWindow windowTime n now h =
  Ok ({| buckets := [];
         bucketTime := wrap64 (Z.quot windowTime n);
         lastAccess := now |}, h).
Proof.
  intros Hn. unfold NewWindow, ring_New, ring_Len. munfold.
  destruct (Z.leb_spec n 0); [|lia]. simpl.
  by destruct (Z.eqb_spec n 0); [lia|].
Qed.

Lemma construct_pos windowTime n now h :
  1 <= n ->
  exists s, construct windowTime n now h = Ok s /\ wf s /\
            buckets (self s) <> [] /\
            length (buckets (self s)) = Z.to_nat n /\
            bucketTime (self s) = wrap64 (Z.quot windowTime n) /\
            lastAccess (self s) = now.
Proof.
  intros Hn. unfold construct. rewrite NewWindow_pos by done.
  eexists. split; [done|]. simpl. split_and!; try done.
  - constructor; simpl.
    + apply Forall_fmap, Forall_forall. intros a Ha. exists a. split; [done|].
      apply elem_of_seq in Ha. apply lookup_lt_is_Some.
      rewrite length_app, length_replicate. lia.
    + apply NoDup_fmap_2; [apply _|apply NoDup_seq].
    + apply wrap64_range.
  - destruct (Z.to_nat n) eqn:E; [lia|done].
  - by rewrite length_fmap, length_seq.
Qed.

(** ** Every call returns on a well-formed window with buckets *)

Lemma read_total s :
  ptrs_ok (heap s) (buckets (self s)) ->
  exists vs,
    counts (heap s) (buckets (self s)) = Ok vs /\
    length vs = length (buckets (self s)) /\
    Failures s = Ok (wrap64 (sumZ failure vs), s) /\
    Successes s = Ok (wrap64 (sumZ success vs), s) /\
    ErrorRate s =
    Ok (if wrap64 (sumZ failure vs + sumZ success vs) =? 0
        then S754_zero false
        else float64_div (float64_of_int64 (wrap64 (sumZ failure vs)))
               (float64_of_int64 (wrap64 (sumZ failure vs + sumZ success vs))),
        s).
Proof.
  intros Hp. destruct (counts_ok _ _ Hp) as (vs & Hc & Hlen).
  exists vs. rewrite Failures_counts, Successes_counts, ErrorRate_counts, Hc.
  done.
Qed.

Lemma exec_op_total o s :
  wf s -> buckets (self s) <> [] ->
  exists s', exec_op o s = Ok (tt, s') /\ wf s' /\ buckets (self s') <> [].
Proof.
  intros Hwf Hne.
  destruct (read_total s (wf_ptrs s Hwf)) as (vs & _ & _ & HF & HS & HE).
  destruct o as [t1 t2|t1 t2| | | |]; simpl.
  - apply (write_total WFail); done.
  - apply (write_total WSuccess); done.
  - exists s. munfold. by rewrite HF.
  - exists s. munfold. by rewrite HS.
  - exists s. munfold. by rewrite HE.
  - rewrite Reset_eq by apply Hwf. eexists. split; [done|].
    split; [by apply wf_reset|done].
Qed.

Lemma exec_total ops s :
  wf s -> buckets (self s) <> [] ->
  exists s', exec ops s = Ok (tt, s') /\ wf s' /\ buckets (self s') <> [].
Proof.
  revert s. induction ops as [|o ops IH]; intros s Hwf Hne.
  - by exists s.
  - destruct (exec_op_total o s Hwf Hne) as (s1 & H1 & Hwf1 & Hne1).
    destruct (IH s1 Hwf1 Hne1) as (s2 & H2 & Hwf2 & Hne2).
    exists s2. split; [|done]. simpl. munfold. by rewrite H1.
Qed.

(** ** The example windows *)

Lemma busy_reachable : session (3 * sec) 3 0 busy_calls = Ok busy.
Proof. vm_compute. reflexivity. Qed.

Lemma busy_wf : wf busy.
Proof. solve_wf. Qed.

(** * The claims *)

(** [ErrorRate] is the composition of the two other reads, on every state:
    it panics where they do. *)
Lemma ErrorRate_from_reads s :
  ErrorRate s =
  (f ← Failures;
   su ← Successes;
   let total := wrap64 (f + su) in
   if total =? 0 then ret (S754_zero false)
   else ret (float64_div (float64_of_int64 f) (float64_of_int64 total))) s.
Proof.
  munfold. rewrite ErrorRate_counts, Failures_counts.
  destruct (counts (heap s) (buckets (self s))) as [vs|] eqn:E; [|done].
  rewrite Successes_counts, E.
  rewrite wrap64_add_l, wrap64_add_r. cbv zeta.
  by destruct (wrap64 (sumZ failure vs + sumZ success vs) =? 0).
Qed.

(** C1: on every window state, [ErrorRate] returns the total of the
    failures divided by the total of the failures and the successes, both
    taken over every bucket of the ring (the values [Failures] and
    [Successes] return), and exactly 0.0 when that denominator is zero. *)
Theorem ErrorRate_is_failure_ratio (s : state) (Hwf : wf s) :
  exists vs f su,
    counts (heap s) (buckets (self s)) = Ok vs /\
    length vs = length (buckets (self s)) /\
    f = wrap64 (sumZ failure vs) /\
    su = wrap64 (sumZ success vs) /\
    Failures s = Ok (f, s) /\
    Successes s = Ok (su, s) /\
    ErrorRate s =
    Ok (if wrap64 (f + su) =? 0 then S754_zero false
        else float64_div (float64_of_int64 f) (float64_of_int64 (wrap64 (f + su))),
        s).
Proof.
  destruct (read_total s (wf_ptrs s Hwf)) as (vs & Hc & Hlen & HF & HS & HE).
  exists vs, (wrap64 (sumZ failure vs)), (wrap64 (sumZ success vs)).
  split_and!; try done.
  by rewrite wrap64_add_l, wrap64_add_r.
Qed.

Lemma ErrorRate_is_failure_ratio_witness :
  wf busy /\
  exists vs f su,
    counts (heap busy) (buckets (self busy)) = Ok vs /\
    length vs = length (buckets (self busy)) /\
    f = wrap64 (sumZ failure vs) /\
    su = wrap64 (sumZ success vs) /\
    Failures busy = Ok (f, busy) /\
    Successes busy = Ok (su, busy) /\
    ErrorRate busy =
    Ok (if wrap64 (f + su) =? 0 then S754_zero false
        else float64_div (float64_of_int64 f) (float64_of_int64 (wrap64 (f + su))),
        busy).
Proof.
  split; [exact busy_wf|exact (ErrorRate_is_failure_ratio busy busy_wf)].
Defined.

(** The rate of [busy]: 6 failures in 10 calls, and of a fresh window. *)
Example ErrorRate_busy :
  ErrorRate busy = Ok (S754_finite false 5404319552844595 (-53), busy).
Proof. vm_compute. reflexivity. Qed.

Example ErrorRate_fresh :
  (match session (3 * sec) 3 0 [] with
   | Ok s => match ErrorRate s with Ok (e, _) => Some e | Panic _ => None end
   | Panic _ => None
   end) = Some (S754_zero false).
Proof. vm_compute. reflexivity. Qed.

(** The state a read is given is the state it leaves, on every state. *)
Lemma reads_leave_state s :
  (forall f s', Failures s = Ok (f, s') -> s' = s) /\
  (forall su s', Successes s = Ok (su, s') -> s' = s) /\
  (forall e s', ErrorRate s = Ok (e, s') -> s' = s).
Proof.
  rewrite Failures_counts, Successes_counts, ErrorRate_counts.
  destruct (counts (heap s) (buckets (self s))); split_and!; congruence.
Qed.

(** The totals do not depend on which element the ring pointer is at. *)
Lemma counts_next h x rest v vs :
  counts h (x :: rest) = Ok (v :: vs) -> counts h (rest ++ [x]) = Ok (vs ++ [v]).
Proof.
  simpl. rewrite counts_snoc.
  destruct (deref h x) as [w|]; [|done].
  destruct (counts h rest) as [ws|]; [|done]. congruence.
Qed.

(** C8: [Failures], [Successes] and [ErrorRate] return and leave the whole
    state as it was: heap (no bucket reset), ring pointer (no rotation) and
    [lastAccess].  They read no clock, so no elapsed time can change this.
    What each of them returns is computed from the sums over every bucket
    of the ring: the total of the failures, the total of the successes,
    and for [ErrorRate] the quotient of the failures by both together
    (0.0 when there is none); and each returns the same wherever the ring
    pointer is. *)
Theorem reads_do_not_mutate (s : state) (Hwf : wf s) :
  exists vs,
    counts (heap s) (buckets (self s)) = Ok vs /\
    length vs = length (buckets (self s)) /\
    let f := wrap64 (sumZ failure vs) in
    let su := wrap64 (sumZ success vs) in
    let total := wrap64 (sumZ failure vs + sumZ success vs) in
    let e := if total =? 0 then S754_zero false
             else float64_div (float64_of_int64 f) (float64_of_int64 total) in
    Failures s = Ok (f, s) /\
    Successes s = Ok (su, s) /\
    ErrorRate s = Ok (e, s) /\
    forall r,
      ring_Next (buckets (self s)) = Ok r ->
      let s1 := written s (heap s) r (lastAccess (self s)) in
      Failures s1 = Ok (f, s1) /\
      Successes s1 = Ok (su, s1) /\
      ErrorRate s1 = Ok (e, s1).
Proof.
  destruct (read_total s (wf_ptrs s Hwf)) as (vs & Hc & Hlen & HF & HS & HE).
  exists vs. cbv zeta. split; [done|]. split; [done|].
  split; [done|]. split; [done|]. split; [done|].
  intros r Hr.
  destruct (buckets (self s)) as [|x rest] eqn:Hring; [done|].
  injection Hr as <-.
  destruct vs as [|v vs]; [done|].
  pose proof (counts_next _ _ _ _ _ Hc) as Hc1.
  rewrite Failures_counts, Successes_counts, ErrorRate_counts.
  simpl. rewrite Hc1. cbv zeta.
  rewrite !sumZ_app. simpl. rewrite !Z.add_0_r.
  rewrite (Z.add_comm (sumZ failure vs)), (Z.add_comm (sumZ success vs)).
  done.
Qed.

Lemma reads_do_not_mutate_witness :
  wf busy /\
  exists vs,
    counts (heap busy) (buckets (self busy)) = Ok vs /\
    length vs = length (buckets (self busy)) /\
    let f := wrap64 (sumZ failure vs) in
    let su := wrap64 (sumZ success vs) in
    let total := wrap64 (sumZ failure vs + sumZ success vs) in
    let e := if total =? 0 then S754_zero false
             else float64_div (float64_of_int64 f) (float64_of_int64 total) in
    Failures busy = Ok (f, busy) /\
    Successes busy = Ok (su, busy) /\
    ErrorRate busy = Ok (e, busy) /\
    forall r,
      ring_Next (buckets (self busy)) = Ok r ->
      let s1 := written busy (heap busy) r (lastAccess (self busy)) in
      Failures s1 = Ok (f, s1) /\
      Successes s1 = Ok (su, s1) /\
      ErrorRate s1 = Ok (e, s1).
Proof.
  split; [exact busy_wf|exact (reads_do_not_mutate busy busy_wf)].
Defined.

Example reads_of_busy :
  Failures busy = Ok (6, busy) /\ Successes busy = Ok (4, busy).
Proof. split; (vm_compute; reflexivity). Qed.

(** C7: [Reset] sets both counters of every bucket of the ring to zero and
    leaves the receiver's fields ([lastAccess], the ring pointer) as they
    were; the reads that follow return zero. *)
Theorem Reset_zeroes_every_bucket (s : state) (Hwf : wf s) :
  exists s',
    Reset s = Ok (tt, s') /\
    self s' = self s /\
    (forall a, Some a ∈ buckets (self s) -> heap s' !! a = Some zero_bucket) /\
    (forall a, Some a ∉ buckets (self s) -> heap s' !! a = heap s !! a) /\
    Failures s' = Ok (0, s') /\
    Successes s' = Ok (0, s') /\
    ErrorRate s' = Ok (S754_zero false, s').
Proof.
  pose proof (wf_ptrs s Hwf) as Hp.
  eexists. split; [by apply Reset_eq|]. simpl. split; [done|].
  split_and!.
  - intros a Ha. apply reset_all_in; [done|].
    unfold ptrs_ok in Hp. rewrite Forall_forall in Hp.
    destruct (Hp _ Ha) as (b & [= <-] & Hb). done.
  - intros a Ha. by apply reset_all_notin.
  - rewrite Failures_counts. simpl. rewrite counts_reset_all by done.
    by rewrite sumZ_replicate_zero.
  - rewrite Successes_counts. simpl. rewrite counts_reset_all by done.
    by rewrite sumZ_replicate_zero.
  - rewrite ErrorRate_counts. simpl. rewrite counts_reset_all by done.
    cbv zeta. by rewrite !sumZ_replicate_zero.
Qed.

Lemma Reset_zeroes_every_bucket_witness :
  wf busy /\
  exists s',
    Reset busy = Ok (tt, s') /\
    self s' = self busy /\
    (forall a, Some a ∈ buckets (self busy) -> heap s' !! a = Some zero_bucket) /\
    (forall a, Some a ∉ buckets (self busy) -> heap s' !! a = heap busy !! a) /\
    Failures s' = Ok (0, s') /\
    Successes s' = Ok (0, s') /\
    ErrorRate s' = Ok (S754_zero false, s').
Proof.
  split; [exact busy_wf|exact (Reset_zeroes_every_bucket busy busy_wf)].
Defined.

Example Reset_busy :
  Reset busy =
  Ok (tt, {| heap := [zero_bucket; zero_bucket; zero_bucket];
             self := self busy |}).
Proof. vm_compute. reflexivity. Qed.

(** ** One write *)

Lemma counts_after_store h a r v :
  NoDup (Some a :: r) -> ptrs_ok h (Some a :: r) ->
  exists stale,
    counts h r = Ok stale /\ length stale = length r /\
    counts (<[a := v]> h) (Some a :: r) = Ok (v :: stale).
Proof.
  intros [Hnotin _]%NoDup_cons Hp.
  apply Forall_cons in Hp as [(b & Heq & Hb) Hrest]. injection Heq as <-.
  destruct (counts_ok _ _ Hrest) as (stale & Hc & Hlen).
  exists stale. split_and!; [done..|]. simpl.
  rewrite list_lookup_insert_eq by (by apply lookup_lt_is_Some).
  by rewrite counts_insert_notin, Hc.
Qed.

(** The outcome of a write, by the rotation test. *)
Lemma write_outcome k t1 t2 s :
  wf s -> buckets (self s) <> [] ->
  exists s',
    do_write k t1 t2 s = Ok (tt, s') /\
    wf s' /\
    bucketTime (self s') = bucketTime (self s) /\
    lastAccess (self s') = t2 /\
    (Since (lastAccess (self s)) t1 > bucketTime (self s) -> rotates k s s') /\
    (Since (lastAccess (self s)) t1 <= bucketTime (self s) -> stays k s s').
Proof.
  intros Hwf Hne.
  destruct (wf_head s Hwf Hne) as (a0 & rest & v & Hr & Ha).
  destruct (Z_le_gt_dec (Since (lastAccess (self s)) t1) (bucketTime (self s)))
    as [Hle|Hgt].
  - eexists. split; [by eapply write_keep|].
    split; [apply wf_written; [done|by rewrite length_insert|by left]|].
    do 2 (split; [done|]). split; [intros; lia|].
    intros _. exists a0, v. unfold current. by rewrite Hr.
  - destruct (wf_next s a0 rest Hwf Hr) as (a & r' & Hnext & Hsome).
    eexists. split; [by eapply write_rotate|].
    split; [apply wf_written; [done|by rewrite length_insert|right; by rewrite Hr]|].
    do 2 (split; [done|]). split; [|intros; lia].
    intros _. exists a. unfold current. simpl. rewrite Hr. simpl.
    by rewrite Hnext.
Qed.

(** C2: whatever the clock readings, hence however many bucket durations
    have passed since the last access, a write moves the ring pointer by at
    most one element and changes one bucket only, the one then current;
    every other bucket of the ring keeps its counts, and the totals read
    afterwards are the new current bucket plus those old counts. *)
Theorem write_rotates_one_step (s : state) (k : write) (t_since t_now : Time)
    (Hwf : wf s) (Hne : buckets (self s) <> []) :
  exists s' a v stale,
    do_write k t_since t_now s = Ok (tt, s') /\
    (buckets (self s') = buckets (self s) \/
     ring_Next (buckets (self s)) = Ok (buckets (self s'))) /\
    current s' = Some a /\
    heap s' !! a = Some v /\
    (forall a', a' <> a -> heap s' !! a' = heap s !! a') /\
    counts (heap s) (tail (buckets (self s'))) = Ok stale /\
    length stale = (length (buckets (self s)) - 1)%nat /\
    Failures s' = Ok (wrap64 (failure v + sumZ failure stale), s') /\
    Successes s' = Ok (wrap64 (success v + sumZ success stale), s').
Proof.
  destruct (write_outcome k t_since t_now s Hwf Hne)
    as (s' & Hrun & Hwf' & _ & _ & Hrot & Hstay).
  pose proof (wf_ptrs _ Hwf) as Hp. pose proof (wf_nodup _ Hwf) as Hn.
  assert (Hcase : exists a w r,
            (buckets (self s') = buckets (self s) \/
             ring_Next (buckets (self s)) = Ok (buckets (self s'))) /\
            buckets (self s') = Some a :: r /\
            length r = (length (buckets (self s)) - 1)%nat /\
            is_Some (heap s !! a) /\
            heap s' = <[a := w]> (heap s) /\
            NoDup (Some a :: r) /\ ptrs_ok (heap s) (Some a :: r)).
  { destruct (Z_le_gt_dec (Since (lastAccess (self s)) t_since)
                (bucketTime (self s))) as [Hle|Hgt].
    - destruct (Hstay Hle) as (a & v & Hcur & Ha & Hsame & Hheap).
      unfold current in Hcur.
      destruct (buckets (self s)) as [|[b|] r] eqn:Hr; try done.
      injection Hcur as ->.
      exists a, (bump k v), r. rewrite Hsame.
      split_and!; first [done|by left|by eexists|simpl; lia].
    - destruct (Hrot Hgt) as (a & Hnext & Hcur & Heap).
      destruct (buckets (self s)) as [|x rest] eqn:Hr; [done|].
      injection Hnext as Hnext.
      unfold current in Hcur. rewrite <- Hnext in *.
      destruct (rest ++ [x]) as [|[b|] r] eqn:Hr'; try done.
      injection Hcur as ->.
      assert (Hp' : ptrs_ok (heap s) (Some a :: r)).
      { rewrite <- Hr'. by apply ptrs_ok_rotate. }
      assert (Hlen : length r = (length (x :: rest) - 1)%nat).
      { apply (f_equal length) in Hr'. rewrite length_app in Hr'.
        simpl in *. lia. }
      assert (Hsome : is_Some (heap s !! a)).
      { apply Forall_cons in Hp' as [(b & Heq & Hb) _]. by injection Heq as <-. }
      assert (Hn' : NoDup (Some a :: r)).
      { rewrite <- Hr'. by apply NoDup_rotate. }
      exists a, (bump k zero_bucket), r.
      split_and!; first [done|by (right; simpl; rewrite Hr')]. }
  destruct Hcase as (a & w & r & Hmove & Hr' & Hlen & Hsome & Hheap & Hn' & Hp').
  destruct (counts_after_store (heap s) a r w Hn' Hp')
    as (stale & Hc & Hlens & Hc').
  exists s', a, w, stale. split_and!; try done.
  - unfold current. by rewrite Hr'.
  - rewrite Hheap. apply list_lookup_insert_eq. by apply lookup_lt_is_Some.
  - intros a' Hne'. rewrite Hheap. by apply list_lookup_insert_ne.
  - by rewrite Hr'.
  - lia.
  - by rewrite Failures_counts, Hr', Hheap, Hc'.
  - by rewrite Successes_counts, Hr', Hheap, Hc'.
Qed.

(** A failure five bucket durations after the last access of [busy]. *)
Lemma write_rotates_one_step_witness :
  wf busy /\ buckets (self busy) <> [] /\
  exists s' a v stale,
    do_write WFail (9 * sec) (9 * sec) busy = Ok (tt, s') /\
    (buckets (self s') = buckets (self busy) \/
     ring_Next (buckets (self busy)) = Ok (buckets (self s'))) /\
    current s' = Some a /\
    heap s' !! a = Some v /\
    (forall a', a' <> a -> heap s' !! a' = heap busy !! a') /\
    counts (heap busy) (tail (buckets (self s'))) = Ok stale /\
    length stale = (length (buckets (self busy)) - 1)%nat /\
    Failures s' = Ok (wrap64 (failure v + sumZ failure stale), s') /\
    Successes s' = Ok (wrap64 (success v + sumZ success stale), s').
Proof.
  split; [exact busy_wf|]. split; [discriminate|].
  apply (write_rotates_one_step busy WFail (9 * sec) (9 * sec) busy_wf).
  discriminate.
Defined.

(** After five idle seconds one bucket of [busy] is cleared, not three: the
    stale counts of the two others are still in the totals. *)
Example write_after_long_idle :
  exists s',
    Fail (9 * sec) (9 * sec) busy = Ok (tt, s') /\
    heap s' = [{| failure := 1; success := 0 |};
               {| failure := 0; success := 3 |};
               {| failure := 4; success := 0 |}] /\
    buckets (self s') = [Some 0%nat; Some 1%nat; Some 2%nat] /\
    Failures s' = Ok (5, s') /\ Successes s' = Ok (3, s').
Proof.
  eexists. split; [vm_compute; reflexivity|].
  split_and!; vm_compute; reflexivity.
Qed.

(** C3, amended: a write rotates one step exactly when the time elapsed
    since [lastAccess] is greater than [bucketTime]; when the elapsed time
    is [bucketTime] or less, the equal case included, it does not rotate. *)
Theorem rotation_decision (s : state) (k : write) (t_since t_now : Time)
    (Hwf : wf s) (Hne : buckets (self s) <> []) :
  exists s',
    do_write k t_since t_now s = Ok (tt, s') /\
    lastAccess (self s') = t_now /\
    (Since (lastAccess (self s)) t_since > bucketTime (self s) -> rotates k s s') /\
    (Since (lastAccess (self s)) t_since <= bucketTime (self s) -> stays k s s').
Proof.
  destruct (write_outcome k t_since t_now s Hwf Hne)
    as (s' & Hrun & _ & _ & Hlast & Hrot & Hstay).
  by exists s'.
Qed.

Lemma rotation_decision_witness :
  wf busy /\ buckets (self busy) <> [] /\
  exists s',
    do_write WSuccess (5 * sec + 1) (5 * sec + 2) busy = Ok (tt, s') /\
    lastAccess (self s') = 5 * sec + 2 /\
    (Since (lastAccess (self busy)) (5 * sec + 1) > bucketTime (self busy) ->
     rotates WSuccess busy s') /\
    (Since (lastAccess (self busy)) (5 * sec + 1) <= bucketTime (self busy) ->
     stays WSuccess busy s').
Proof.
  split; [exact busy_wf|]. split; [discriminate|].
  apply (rotation_decision busy WSuccess (5 * sec + 1) (5 * sec + 2) busy_wf).
  discriminate.
Defined.

(** C3 as stated fails: [busy] was last accessed at 4 s and has one-second
    buckets; a failure recorded at 5 s, when exactly one bucket duration has
    elapsed, goes to the current bucket and the ring pointer does not
    move. *)
Lemma write_at_exact_bucketTime_stays :
  Since (lastAccess (self busy)) (5 * sec) = bucketTime (self busy) /\
  exists s',
    Fail (5 * sec) (5 * sec) busy = Ok (tt, s') /\
    buckets (self s') = buckets (self busy) /\
    heap s' = [{| failure := 2; success := 1 |};
               {| failure := 0; success := 3 |};
               {| failure := 5; success := 0 |}] /\
    stays WFail busy s' /\
    ~ rotates WFail busy s'.
Proof.
  split; [vm_compute; reflexivity|].
  eexists. split; [vm_compute; reflexivity|].
  split; [reflexivity|]. split; [reflexivity|]. split.
  - exists 2%nat, {| failure := 4; success := 0 |}.
    split_and!; vm_compute; reflexivity.
  - intros (a & Hnext & _). vm_compute in Hnext. discriminate.
Qed.

(** C10: a write that rotates resets the bucket it rotates into before it
    counts, so that bucket then holds one failure and no success after
    [Fail], one success and no failure after [Success]; and a single write
    can make [Failures], [Successes] and their sum strictly smaller, as a
    failure recorded on [busy] at 6 s does. *)
Theorem rotating_write_restarts_bucket (s : state) (k : write)
    (t_since t_now : Time) (Hwf : wf s) (Hne : buckets (self s) <> [])
    (Hrot : Since (lastAccess (self s)) t_since > bucketTime (self s)) :
  (exists s' a,
     do_write k t_since t_now s = Ok (tt, s') /\
     ring_Next (buckets (self s)) = Ok (buckets (self s')) /\
     current s' = Some a /\
     heap s' !! a =
     Some (match k with
           | WFail => {| failure := 1; success := 0 |}
           | WSuccess => {| failure := 0; success := 1 |}
           end)) /\
  (exists s0 t s0' f f' su su',
     reachable s0 /\
     Fail t t s0 = Ok (tt, s0') /\
     Failures s0 = Ok (f, s0) /\ Failures s0' = Ok (f', s0') /\
     Successes s0 = Ok (su, s0) /\ Successes s0' = Ok (su', s0') /\
     f' < f /\ su' < su /\ f' + su' < f + su).
Proof.
  split.
  - destruct (write_outcome k t_since t_now s Hwf Hne)
      as (s' & Hrun & Hwf' & _ & _ & Hr & _).
    destruct (Hr Hrot) as (a & Hnext & Hcur & Hheap).
    exists s', a. split_and!; try done.
    rewrite Hheap.
    assert (Hsome : is_Some (heap s !! a)).
    { pose proof (wf_ptrs _ Hwf') as Hp. unfold current in Hcur.
      destruct (buckets (self s')) as [|[b|] r]; try done.
      injection Hcur as ->.
      apply Forall_cons in Hp as [(b & Heq & Hb) _]. injection Heq as <-.
      apply lookup_lt_is_Some. apply lookup_lt_is_Some in Hb.
      by rewrite Hheap, length_insert in Hb. }
    rewrite list_lookup_insert_eq by (by apply lookup_lt_is_Some).
    by destruct k.
  - exists busy, (6 * sec). eexists. exists 6, 5, 4, 3.
    split; [eexists _, _, _, _; apply busy_reachable|].
    split; [vm_compute; reflexivity|].
    split_and!; vm_compute; reflexivity.
Qed.

Lemma rotating_write_restarts_bucket_witness :
  wf busy /\ buckets (self busy) <> [] /\
  Since (lastAccess (self busy)) (6 * sec) > bucketTime (self busy) /\
  (exists s' a,
     do_write WSuccess (6 * sec) (6 * sec) busy = Ok (tt, s') /\
     ring_Next (buckets (self busy)) = Ok (buckets (self s')) /\
     current s' = Some a /\
     heap s' !! a = Some {| failure := 0; success := 1 |}) /\
  (exists s0 t s0' f f' su su',
     reachable s0 /\
     Fail t t s0 = Ok (tt, s0') /\
     Failures s0 = Ok (f, s0) /\ Failures s0' = Ok (f', s0') /\
     Successes s0 = Ok (su, s0) /\ Successes s0' = Ok (su', s0') /\
     f' < f /\ su' < su /\ f' + su' < f + su).
Proof.
  split; [exact busy_wf|]. split; [discriminate|].
  split; [vm_compute; reflexivity|].
  apply (rotating_write_restarts_bucket busy WSuccess (6 * sec) (6 * sec)
           busy_wf); [discriminate|vm_compute; reflexivity].
Defined.

(** ** Bursts *)

Lemma written_id s : written s (heap s) (buckets (self s)) (lastAccess (self s)) = s.
Proof. by destruct s as [h [r bt la]]. Qed.

(** Calls that never find the bucket duration exceeded all land in the
    current bucket: the ring never moves. *)
Lemma calm_exec cs s a rest v :
  buckets (self s) = Some a :: rest ->
  heap s !! a = Some v ->
  calm (lastAccess (self s)) (bucketTime (self s)) cs ->
  exec (call_op <$> cs) s =
  Ok (tt, written s (<[a := foldl (fun v c => bump (kind c) v) v cs]> (heap s))
            (buckets (self s)) (final_access (lastAccess (self s)) cs)).
Proof.
  revert s v. induction cs as [|c cs IH]; intros s v Hr Ha Hcalm.
  - simpl. unfold ret. unfold final_access. simpl.
    by rewrite list_insert_id, written_id.
  - destruct Hcalm as [Hle Hcalm]. csimpl. munfold.
    assert (Hstep : exec_op (call_op c) s =
                    do_write (kind c) (read_since c) (read_now c) s).
    { unfold call_op. by destruct (kind c). }
    rewrite Hstep, (write_keep _ _ _ _ a rest v) by done.
    set (s1 := written s _ _ _).
    rewrite (IH s1 (bump (kind c) v)); subst s1; simpl; try done.
    + unfold written. simpl. by rewrite list_insert_insert_eq.
    + apply list_lookup_insert_eq. by apply lookup_lt_is_Some; eexists.
Qed.

Lemma within_span_calm last0 bt cs last :
  in_int64 bt -> last0 <= last ->
  Forall (within_span last0 bt) cs -> calm last bt cs.
Proof.
  intros Hbt. revert last. induction cs as [|c cs IH]; intros last Hlast Hall.
  - done.
  - apply Forall_cons in Hall as [[Hs Hn] Hall]. simpl. split.
    + unfold Since. apply sat64_le; [done|lia].
    + apply IH; [lia|done].
Qed.

Lemma bumps_failure cs v :
  wrap64 (failure (foldl (fun v c => bump (kind c) v) v cs)) =
  wrap64 (failure v + tally WFail cs).
Proof.
  revert v. induction cs as [|c cs IH]; intros v; simpl.
  - by rewrite Z.add_0_r.
  - rewrite IH. destruct (kind c); simpl.
    + rewrite wrap64_add_l. f_equal. lia.
    + done.
Qed.

Lemma bumps_success cs v :
  wrap64 (success (foldl (fun v c => bump (kind c) v) v cs)) =
  wrap64 (success v + tally WSuccess cs).
Proof.
  revert v. induction cs as [|c cs IH]; intros v; simpl.
  - by rewrite Z.add_0_r.
  - rewrite IH. destruct (kind c); simpl.
    + done.
    + rewrite wrap64_add_l. f_equal. lia.
Qed.

Lemma tally_total cs :
  tally WFail cs + tally WSuccess cs = Z.of_nat (length cs).
Proof.
  induction cs as [|c cs IH]; simpl length; [done|].
  rewrite Nat2Z.inj_succ. simpl tally. destruct (kind c); lia.
Qed.

Lemma tally_nonneg k cs : 0 <= tally k cs.
Proof. induction cs as [|c cs IH]; simpl; [done|]. destruct (kind c), k; lia. Qed.

(** The totals after a calm burst, on any well-formed window. *)
Lemma calm_totals cs s f su :
  wf s -> buckets (self s) <> [] ->
  calm (lastAccess (self s)) (bucketTime (self s)) cs ->
  Failures s = Ok (f, s) ->
  Successes s = Ok (su, s) ->
  exists s' a,
    exec (call_op <$> cs) s = Ok (tt, s') /\
    current s = Some a /\
    buckets (self s') = buckets (self s) /\
    (forall a', a' <> a -> heap s' !! a' = heap s !! a') /\
    Failures s' = Ok (wrap64 (f + tally WFail cs), s') /\
    Successes s' = Ok (wrap64 (su + tally WSuccess cs), s').
Proof.
  intros Hwf Hne Hcalm HF HS.
  destruct (wf_head s Hwf Hne) as (a & rest & v & Hr & Ha).
  eexists. exists a. split; [by eapply calm_exec|].
  pose proof (wf_ptrs _ Hwf) as Hp. pose proof (wf_nodup _ Hwf) as Hn.
  rewrite Hr in Hp, Hn.
  set (v' := foldl (fun v c => bump (kind c) v) v cs).
  destruct (counts_after_store (heap s) a rest v' Hn Hp)
    as (stale & Hc & Hlen & Hc').
  assert (Hold : counts (heap s) (buckets (self s)) = Ok (v :: stale)).
  { rewrite Hr. simpl. by rewrite Ha, Hc. }
  rewrite Failures_counts, Hold in HF. rewrite Successes_counts, Hold in HS.
  injection HF as <-. injection HS as <-.
  split_and!.
  - unfold current. by rewrite Hr.
  - done.
  - intros a' Hne'. simpl. by apply list_lookup_insert_ne.
  - rewrite Failures_counts. simpl. rewrite Hr, Hc'. do 2 f_equal. simpl.
    rewrite wrap64_add_l. rewrite <- wrap64_add_l. unfold v'.
    rewrite bumps_failure, wrap64_add_l. f_equal. lia.
  - rewrite Successes_counts. simpl. rewrite Hr, Hc'. do 2 f_equal. simpl.
    rewrite wrap64_add_l. rewrite <- wrap64_add_l. unfold v'.
    rewrite bumps_success, wrap64_add_l. f_equal. lia.
Qed.

(** C6: calls of [Fail] and [Success] whose clock readings all fall within
    less than one bucket duration of the last access all land in the bucket
    that is current when they start: the ring pointer does not move, no
    other bucket changes, and that bucket is counted up once a call.
    [Failures] and [Successes] grow by the numbers of [Fail] and of
    [Success] calls, and their sum by the number of calls, in int64
    arithmetic; the sum is the number of calls itself only on a window that
    held no counts. *)
Theorem burst_lands_in_one_bucket (s : state) (cs : list call)
    (Hwf : wf s) (Hne : buckets (self s) <> [])
    (Hspan : Forall (within_span (lastAccess (self s)) (bucketTime (self s))) cs) :
  exists s' a v f su f' su',
    exec (call_op <$> cs) s = Ok (tt, s') /\
    current s = Some a /\
    buckets (self s') = buckets (self s) /\
    (forall a', a' <> a -> heap s' !! a' = heap s !! a') /\
    heap s !! a = Some v /\
    heap s' !! a = Some (foldl (fun v c => bump (kind c) v) v cs) /\
    Failures s = Ok (f, s) /\
    Successes s = Ok (su, s) /\
    Failures s' = Ok (f', s') /\
    Successes s' = Ok (su', s') /\
    f' = wrap64 (f + tally WFail cs) /\
    su' = wrap64 (su + tally WSuccess cs) /\
    tally WFail cs + tally WSuccess cs = Z.of_nat (length cs) /\
    wrap64 (f' + su') = wrap64 (f + su + Z.of_nat (length cs)) /\
    (0 <= f -> 0 <= su -> f + su + Z.of_nat (length cs) <= int64_max ->
     f' = f + tally WFail cs /\
     su' = su + tally WSuccess cs /\
     f' + su' = f + su + Z.of_nat (length cs) /\
     wrap64 (f' + su') = f + su + Z.of_nat (length cs)) /\
    (f = 0 -> su = 0 -> Z.of_nat (length cs) <= int64_max ->
     f' + su' = Z.of_nat (length cs) /\
     wrap64 (f' + su') = Z.of_nat (length cs)).
Proof.
  assert (Hcalm : calm (lastAccess (self s)) (bucketTime (self s)) cs).
  { eapply within_span_calm; [apply Hwf|reflexivity|done]. }
  destruct (wf_head s Hwf Hne) as (a & rest & v & Hr & Ha).
  destruct (read_total s (wf_ptrs s Hwf)) as (vs & _ & _ & HF & HS & _).
  destruct (calm_totals cs s _ _ Hwf Hne Hcalm HF HS)
    as (s' & a1 & Hrun & Hcur & Hring & Hframe & HF' & HS').
  assert (a1 = a) as ->.
  { unfold current in Hcur. rewrite Hr in Hcur. congruence. }
  pose proof (calm_exec cs s a rest v Hr Ha Hcalm) as Hrun'.
  rewrite Hrun in Hrun'. injection Hrun' as Hs'.
  pose proof (tally_total cs) as Htot.
  pose proof (tally_nonneg WFail cs) as Hf0.
  pose proof (tally_nonneg WSuccess cs) as Hs0.
  set (f := wrap64 (sumZ failure vs)) in *.
  set (su := wrap64 (sumZ success vs)) in *.
  assert (Hsum : wrap64 (wrap64 (f + tally WFail cs)
                         + wrap64 (su + tally WSuccess cs)) =
                 wrap64 (f + su + Z.of_nat (length cs))).
  { rewrite wrap64_add_l, wrap64_add_r. f_equal. lia. }
  assert (Hexact : 0 <= f -> 0 <= su ->
                   f + su + Z.of_nat (length cs) <= int64_max ->
                   wrap64 (f + tally WFail cs) = f + tally WFail cs /\
                   wrap64 (su + tally WSuccess cs) = su + tally WSuccess cs /\
                   wrap64 (f + su + Z.of_nat (length cs)) =
                   f + su + Z.of_nat (length cs)).
  { intros Hf Hsu Hmax.
    split_and!; apply wrap64_id; unfold in_int64, int64_min; lia. }
  exists s', a, v, f, su.
  exists (wrap64 (f + tally WFail cs)), (wrap64 (su + tally WSuccess cs)).
  split_and!; try done.
  - rewrite Hs'. simpl. apply list_lookup_insert_eq.
    by apply lookup_lt_is_Some; eexists.
  - intros Hf Hsu Hmax. destruct (Hexact Hf Hsu Hmax) as (E1 & E2 & E3).
    rewrite Hsum, E1, E2, E3. split_and!; try done. lia.
  - intros Hf Hsu Hmax.
    destruct Hexact as (E1 & E2 & E3); [lia|lia|lia|].
    rewrite Hsum, E1, E2, E3. lia.
Qed.

Lemma fresh_constructed : construct (3 * sec) 3 0 [] = Ok fresh.
Proof. vm_compute. reflexivity. Qed.

Lemma fresh_wf : wf fresh.
Proof. solve_wf. Qed.

Lemma burst_within_span :
  Forall (within_span (lastAccess (self fresh)) (bucketTime (self fresh))) burst.
Proof.
  repeat (apply Forall_cons; split;
          [unfold within_span; simpl; unfold sec, ms; lia|]).
  constructor.
Qed.

Lemma busy_burst_within_span :
  Forall (within_span (lastAccess (self busy)) (bucketTime (self busy)))
    busy_burst.
Proof.
  repeat (apply Forall_cons; split;
          [unfold within_span; simpl; unfold sec, ms; lia|]).
  constructor.
Qed.

Lemma burst_lands_in_one_bucket_witness :
  wf busy /\ buckets (self busy) <> [] /\
  Forall (within_span (lastAccess (self busy)) (bucketTime (self busy)))
    busy_burst /\
  exists s' a v f su f' su',
    exec (call_op <$> busy_burst) busy = Ok (tt, s') /\
    current busy = Some a /\
    buckets (self s') = buckets (self busy) /\
    (forall a', a' <> a -> heap s' !! a' = heap busy !! a') /\
    heap busy !! a = Some v /\
    heap s' !! a = Some (foldl (fun v c => bump (kind c) v) v busy_burst) /\
    Failures busy = Ok (f, busy) /\
    Successes busy = Ok (su, busy) /\
    Failures s' = Ok (f', s') /\
    Successes s' = Ok (su', s') /\
    f' = wrap64 (f + tally WFail busy_burst) /\
    su' = wrap64 (su + tally WSuccess busy_burst) /\
    tally WFail busy_burst + tally WSuccess busy_burst =
    Z.of_nat (length busy_burst) /\
    wrap64 (f' + su') = wrap64 (f + su + Z.of_nat (length busy_burst)) /\
    (0 <= f -> 0 <= su ->
     f + su + Z.of_nat (length busy_burst) <= int64_max ->
     f' = f + tally WFail busy_burst /\
     su' = su + tally WSuccess busy_burst /\
     f' + su' = f + su + Z.of_nat (length busy_burst) /\
     wrap64 (f' + su') = f + su + Z.of_nat (length busy_burst)) /\
    (f = 0 -> su = 0 -> Z.of_nat (length busy_burst) <= int64_max ->
     f' + su' = Z.of_nat (length busy_burst) /\
     wrap64 (f' + su') = Z.of_nat (length busy_burst)).
Proof.
  split; [exact busy_wf|]. split; [discriminate|].
  split; [exact busy_burst_within_span|].
  apply (burst_lands_in_one_bucket busy busy_burst busy_wf).
  - discriminate.
  - exact busy_burst_within_span.
Defined.

(** C6 as stated fails on a window that holds counts: [busy], reached by
    ten calls on a new window, was last accessed at 4 s and has one-second
    buckets; one failure recorded at 4.5 s lands in the current bucket,
    and [Failures] plus [Successes] is then 11, not the one call made. *)
Lemma burst_total_counts_earlier_calls :
  session (3 * sec) 3 0 busy_calls = Ok busy /\
  Forall (within_span (lastAccess (self busy)) (bucketTime (self busy)))
    one_more /\
  length one_more = 1%nat /\
  exists s' f su,
    exec (call_op <$> one_more) busy = Ok (tt, s') /\
    buckets (self s') = buckets (self busy) /\
    heap s' = [{| failure := 2; success := 1 |};
               {| failure := 0; success := 3 |};
               {| failure := 5; success := 0 |}] /\
    Failures s' = Ok (f, s') /\
    Successes s' = Ok (su, s') /\
    f = 7 /\ su = 4 /\
    f + su <> Z.of_nat (length one_more) /\
    wrap64 (f + su) <> Z.of_nat (length one_more).
Proof.
  split; [exact busy_reachable|].
  split; [repeat constructor; simpl; unfold sec, ms; lia|].
  split; [reflexivity|].
  eexists. exists 7, 4. split; [vm_compute; reflexivity|].
  split; [reflexivity|]. split; [reflexivity|].
  split; [vm_compute; reflexivity|]. split; [vm_compute; reflexivity|].
  split; [done|]. split; [done|]. split; vm_compute; discriminate.
Qed.

Example burst_on_fresh :
  exists s',
    exec (call_op <$> burst) fresh = Ok (tt, s') /\
    heap s' = [{| failure := 2; success := 1 |}; zero_bucket; zero_bucket] /\
    Failures s' = Ok (2, s') /\ Successes s' = Ok (1, s').
Proof.
  eexists. split; [vm_compute; reflexivity|].
  split_and!; vm_compute; reflexivity.
Qed.

(** The defaults give ten one-second buckets; a failure and a success at
    once give a rate of one half. *)
Example default_window :
  exists s s',
    construct DefaultWindowTime DefaultWindowBuckets 0 [] = Ok s /\
    bucketTime (self s) = sec /\
    length (buckets (self s)) = 10%nat /\
    exec [OpFail 5 6; OpSuccess 7 8] s = Ok (tt, s') /\
    Failures s' = Ok (1, s') /\
    Successes s' = Ok (1, s') /\
    ErrorRate s' = Ok (S754_finite false 4503599627370496 (-53), s').
Proof.
  do 2 eexists. split; [vm_compute; reflexivity|].
  split; [vm_compute; reflexivity|]. split; [vm_compute; reflexivity|].
  split; [vm_compute; reflexivity|].
  split_and!; vm_compute; reflexivity.
Qed.

(** ** Construction *)

Lemma construct_neg windowTime n now h :
  n < 0 ->
  exists s,
    construct windowTime n now h = Ok s /\
    buckets (self s) = [] /\
    heap s = h.
Proof.
  intros Hn. unfold construct. rewrite NewWindow_neg by done. by eexists.
Qed.

Lemma nil_ring_calls s :
  buckets (self s) = [] ->
  (forall k t1 t2, do_write k t1 t2 s = Panic NilDereference) /\
  Failures s = Ok (0, s) /\
  Successes s = Ok (0, s) /\
  ErrorRate s = Ok (S754_zero false, s) /\
  Reset s = Ok (tt, s).
Proof.
  intros Hr. split_and!.
  - intros k t1 t2. rewrite do_write_eq. unfold write_with. munfold.
    by rewrite Hr.
  - rewrite Failures_counts. by rewrite Hr.
  - rewrite Successes_counts. by rewrite Hr.
  - rewrite ErrorRate_counts. by rewrite Hr.
  - unfold Reset. munfold. by rewrite Hr.
Qed.

(** C4, amended: a bucket count of zero is fatal in [NewWindow] itself
    (integer division by zero).  A negative count is not: construction
    returns a window with the nil ring, on which the reads return zero,
    [Reset] does nothing and every write panics (nil dereference), so that
    error is left to the first write.  With a count of one or more,
    construction returns and every later sequence of calls returns. *)
Theorem construction_outcomes (windowTime windowBuckets : Z) (now : Time)
    (h : list bucket) :
  match windowBuckets ?= 0 with
  | Eq => construct windowTime windowBuckets now h = Panic DivideByZero
  | Lt =>
      exists s,
        construct windowTime windowBuckets now h = Ok s /\
        buckets (self s) = [] /\
        heap s = h /\
        (forall k t1 t2, do_write k t1 t2 s = Panic NilDereference) /\
        Failures s = Ok (0, s) /\
        Successes s = Ok (0, s) /\
        ErrorRate s = Ok (S754_zero false, s) /\
        Reset s = Ok (tt, s)
  | Gt =>
      exists s,
        construct windowTime windowBuckets now h = Ok s /\
        length (buckets (self s)) = Z.to_nat windowBuckets /\
        lastAccess (self s) = now /\
        forall ops, exists s', exec ops s = Ok (tt, s')
  end.
Proof.
  destruct (Z.compare_spec windowBuckets 0) as [->|Hlt|Hgt].
  - unfold construct. by rewrite NewWindow_zero.
  - destruct (construct_neg windowTime windowBuckets now h Hlt)
      as (s & Hs & Hr & Hh).
    exists s. do 3 (split; [done|]). by apply nil_ring_calls.
  - destruct (construct_pos windowTime windowBuckets now h ltac:(lia))
      as (s & Hs & Hwf & Hne & Hlen & _ & Hlast).
    exists s. split_and!; [done..|].
    intros ops. destruct (exec_total ops s Hwf Hne) as (s' & Hrun & _).
    by exists s'.
Qed.

(** C4 as stated fails: [NewWindow] with a bucket count of -1 returns a
    window; its reads work, and the nil dereference comes with the first
    write. *)
Lemma negative_count_fails_at_first_write :
  exists s,
    construct (10 * sec) (-1) 0 [] = Ok s /\
    Failures s = Ok (0, s) /\
    Fail 1 1 s = Panic NilDereference.
Proof.
  eexists. split; [vm_compute; reflexivity|].
  split_and!; vm_compute; reflexivity.
Qed.

(** ** A window that never rolls *)

(** C5, at a failing input: a window of two one-second buckets built at
    time 0 and a failure every 600 ms until 3 s.  No call finds more than
    one second elapsed since the access before it, so the ring never
    rotates: [Failures] returns all 5, although only 4 of them were
    recorded in the two seconds before the last one. *)
Theorem steady_writes_never_rotate :
  exists s0 s',
    construct (2 * sec) 2 0 [] = Ok s0 /\
    bucketTime (self s0) = sec /\
    exec (call_op <$> steady_calls) s0 = Ok (tt, s') /\
    buckets (self s') = buckets (self s0) /\
    lastAccess (self s') = 3000 * ms /\
    Failures s' = Ok (5, s') /\
    calls_after (3000 * ms - 2 * sec) steady_calls = 4.
Proof.
  do 2 eexists. split; [vm_compute; reflexivity|].
  split; [vm_compute; reflexivity|]. split; [vm_compute; reflexivity|].
  split_and!; vm_compute; reflexivity.
Qed.

(** ** Concurrent writers *)

(** A goroutine that runs alone does what [Fail] does. *)
Lemma run_alone_is_Fail t_since t_now s :
  match run_alone 8 t_since t_now AtRead s with
  | Ok (p, s') => p = AtUnlock /\ Fail t_since t_now s = Ok (tt, s')
  | Panic e => Fail t_since t_now s = Panic e
  end.
Proof.
  destruct s as [h [r bt la]].
  unfold Fail, run_alone, local_step, bucket_Fail, bucket_Reset,
    set_failure, set_success, load, store.
  munfold. simpl.
  destruct r as [|[b|] rest]; simpl; try done.
  destruct (Since la t_since >? bt); simpl.
  - destruct (rest ++ [Some b]) as [|[b'|] r'] eqn:Hr'; simpl; try done.
    lockstep.
  - lockstep.
Qed.


Lemma progress_insert gs i g p :
  gs !! i = Some g ->
  (progress (<[i := goto g p]> gs) + rank (ctl g) = progress gs + rank p)%nat.
Proof.
  revert i. induction gs as [|g0 gs IH]; intros [|i] Hi; try done; simpl in *.
  - injection Hi as ->. lia.
  - specialize (IH i Hi). lia.
Qed.

Lemma progress_bound gs : (progress gs <= 10 * length gs)%nat.
Proof.
  induction gs as [|g gs IH]; simpl; [lia|].
  assert (rank (ctl g) <= 10)%nat by (destruct (ctl g); simpl; lia). lia.
Qed.


Lemma lookup_goto (gs : list goroutine) (i : nat) g p (j : nat) g' :
  <[i := goto g p]> gs !! j = Some g' ->
  (j = i /\ g' = goto g p) \/ (j <> i /\ gs !! j = Some g').
Proof.
  intros H. apply list_lookup_insert_Some in H as [(-> & -> & _)|[Hne H]].
  - by left.
  - right. split; [congruence|done].
Qed.

(** A local step moves its goroutine forward. *)
Lemma local_step_rank t_since t_now p m s p' s' :
  local_step t_since t_now p = Some m ->
  m s = Ok (p', s') ->
  (rank p < rank p')%nat.
Proof.
  destruct p; simpl; intros [= <-]; munfold; intros Hm.
  - destruct (buckets (self s)) as [|[b|] r]; simpl in Hm; try done.
    injection Hm as <- <-. simpl. lia.
  - destruct (Since _ _ >? _); injection Hm as <- <-; simpl; lia.
  - destruct (buckets (self s)) as [|x r]; simpl in Hm; try done.
    injection Hm as <- <-. simpl. lia.
  - destruct (buckets (self s)) as [|[b|] r]; simpl in Hm; try done.
    injection Hm as <- <-. simpl. lia.
  - destruct (bucket_Reset b s) as [[[] s1]|]; try done.
    injection Hm as <- <-. simpl. lia.
  - injection Hm as <- <-. simpl. lia.
  - unfold load in Hm. destruct (heap s !! b); try done.
    injection Hm as <- <-. simpl. lia.
  - destruct (set_failure b _ s) as [[[] s1]|]; try done.
    injection Hm as <- <-. simpl. lia.
Qed.

Lemma step_progress c c' :
  step c c' ->
  (progress (routines c) < progress (routines c'))%nat /\
  length (routines c') = length (routines c).
Proof.
  destruct 1 as [c i g Hi Hctl Hlock|c i g m p' s' Hi Hloc Hm|c i g Hi Hctl];
    simpl; rewrite length_insert; (split; [|done]).
  - pose proof (progress_insert _ _ _ AtRead Hi) as H.
    rewrite Hctl in H. simpl in H. lia.
  - pose proof (progress_insert _ _ _ p' Hi) as H.
    pose proof (local_step_rank _ _ _ _ _ _ _ Hloc Hm). lia.
  - pose proof (progress_insert _ _ _ Finished Hi) as H.
    rewrite Hctl in H. simpl in H. lia.
Qed.

(** Executions are finite: ten steps a goroutine at most. *)
Lemma steps_bound n c c' :
  steps n c c' ->
  (n + progress (routines c) <= progress (routines c'))%nat /\
  length (routines c') = length (routines c).
Proof.
  induction 1 as [c|n c c1 c2 Hstep _ [IH IHlen]]; [split; [lia|done]|].
  destruct (step_progress _ _ Hstep) as [Hlt Hlen].
  split; [lia|congruence].
Qed.






Lemma outside_all gs :
  (forall i g, gs !! i = Some g -> ctl g = AtLock \/ ctl g = Finished) ->
  Forall (fun g => ctl g = Finished) gs \/
  exists i g, gs !! i = Some g /\ ctl g = AtLock.
Proof.
  induction gs as [|g gs IH]; intros H; [by left|].
  destruct (H 0%nat g eq_refl) as [Hg|Hg].
  { right. by exists 0%nat, g. }
  destruct IH as [Hall|(i & g' & Hi & Hg')].
  - intros i g' Hi. by apply (H (S i)).
  - left. by constructor.
  - right. by exists (S i), g'.
Qed.



Lemma counts_agree h h' r :
  (forall a, Some a ∈ r -> h' !! a = h !! a) -> counts h' r = counts h r.
Proof.
  induction r as [|x r IH]; intros H; [done|]. simpl.
  rewrite IH by (intros a Ha; apply H; by apply list_elem_of_further).
  destruct x as [a|]; [|done]. simpl. rewrite H by apply list_elem_of_here.
  done.
Qed.


(** The scheduler function makes steps of the relation. *)
Lemma sched_step_sound i c c' : sched_step i c = Some c' -> step c c'.
Proof.
  unfold sched_step. destruct (routines c !! i) as [g|] eqn:Hi; [|done].
  destruct (ctl g) as [| |b| | |b|b|b|b tmp| |] eqn:Hctl;
    try (destruct (local_step _ _ _) as [m|] eqn:Hloc; [|done];
         destruct (m (shared c)) as [[p' s']|] eqn:Hm; [|done];
         intros [= <-]; eapply step_local; [done|by rewrite Hctl|done]).
  - destruct (lock c) eqn:Hlock; [done|]. intros [= <-]. by apply step_lock.
  - intros [= <-]. by apply step_unlock.
Qed.

Lemma run_schedule_sound sched c c' :
  run_schedule sched c = Some c' -> steps (length sched) c c'.
Proof.
  revert c. induction sched as [|i sched IH]; intros c; simpl.
  - intros [= <-]. constructor.
  - destruct (sched_step i c) as [c1|] eqn:E; [|done]. intros H.
    eapply steps_more; [eapply sched_step_sound; exact E|by apply IH].
Qed.



Lemma three_run :
  exists c, run_schedule three_schedule (spawn fresh three_clocks) = Some c /\
            all_finished c /\
            heap (shared c) =
            [{| failure := 3; success := 0 |}; zero_bucket; zero_bucket].
Proof.
  eexists. split; [vm_compute; reflexivity|].
  split; [repeat constructor|reflexivity].
Qed.



(** Without the lock the count can be lost: were two goroutines both past
    their load of the same value, the second store would overwrite the
    first.  With the lock no such configuration is reachable, by
    [steady_outside]. *)
Example three_final_state :
  all_finished three_final /\ lock three_final = None /\
  Failures (shared three_final) = Ok (3, shared three_final).
Proof. split; [repeat constructor|]. split; (vm_compute; reflexivity). Qed.

(** * Further properties *)

(** ** What a write does to the buckets of the ring *)

(** The buckets before and after a write: [w] is what the bucket that is
    current after the write held before it, [stale] the other buckets. *)
Lemma write_counts k t1 t2 s :
  wf s -> buckets (self s) <> [] ->
  exists s' a' w stale vs,
    do_write k t1 t2 s = Ok (tt, s') /\
    wf s' /\ buckets (self s') <> [] /\
    bucketTime (self s') = bucketTime (self s) /\
    lastAccess (self s') = t2 /\
    current s' = Some a' /\
    heap s !! a' = Some w /\
    counts (heap s) (buckets (self s)) = Ok vs /\
    (if Since (lastAccess (self s)) t1 >? bucketTime (self s)
     then ring_Next (buckets (self s)) = Ok (buckets (self s')) /\
          (exists v0 rest, vs = v0 :: rest /\ rest ++ [v0] = w :: stale) /\
          counts (heap s') (buckets (self s')) =
          Ok (bump k zero_bucket :: stale)
     else buckets (self s') = buckets (self s) /\
          vs = w :: stale /\
          counts (heap s') (buckets (self s')) = Ok (bump k w :: stale)).
Proof.
  intros Hwf Hne.
  destruct (write_outcome k t1 t2 s Hwf Hne)
    as (s' & Hrun & Hwf' & Hbt & Hlast & Hrot & Hstay).
  pose proof (wf_ptrs _ Hwf) as Hp. pose proof (wf_nodup _ Hwf) as Hn.
  destruct (Z.gtb_spec (Since (lastAccess (self s)) t1) (bucketTime (self s)))
    as [Hgt|Hle].
  - destruct (Hrot ltac:(lia)) as (a & Hnext & Hcur & Hheap).
    destruct (buckets (self s)) as [|x rest] eqn:Hr; [done|].
    injection Hnext as Hnext.
    unfold current in Hcur. rewrite <- Hnext in Hcur.
    destruct (rest ++ [x]) as [|[b|] r] eqn:Hr'; try done.
    injection Hcur as ->.
    assert (Hp' : ptrs_ok (heap s) (Some a :: r)).
    { rewrite <- Hr'. by apply ptrs_ok_rotate. }
    assert (Hn' : NoDup (Some a :: r)).
    { rewrite <- Hr'. by apply NoDup_rotate. }
    destruct (counts_after_store (heap s) a r (bump k zero_bucket) Hn' Hp')
      as (stale & Hc & _ & Hc').
    pose proof Hp' as Hp''.
    apply Forall_cons in Hp'' as [(b & Heq & [w Hw]) _]. injection Heq as <-.
    destruct (counts_ok _ _ Hp) as (vs & Hvs & _).
    destruct vs as [|v0 vrest].
    { exfalso. simpl in Hvs. destruct (deref (heap s) x); [|done].
      by destruct (counts (heap s) rest). }
    pose proof (counts_next _ _ _ _ _ Hvs) as Hvs'.
    rewrite Hr' in Hvs'. simpl in Hvs'. rewrite Hw, Hc in Hvs'.
    injection Hvs' as Hvs'.
    exists s', a, w, stale, (v0 :: vrest).
    split_and!; try done.
    + by rewrite <- Hnext.
    + unfold current. by rewrite <- Hnext.
    + simpl. by rewrite Hr', Hnext.
    + by exists v0, vrest.
    + by rewrite <- Hnext, Hheap.
  - destruct (Hstay Hle) as (a & w & Hcur & Ha & Hsame & Hheap).
    unfold current in Hcur.
    destruct (buckets (self s)) as [|[b|] r] eqn:Hr; try done.
    injection Hcur as ->.
    destruct (counts_after_store (heap s) a r (bump k w) Hn Hp)
      as (stale & Hc & _ & Hc').
    exists s', a, w, stale, (w :: stale).
    split_and!; try done.
    + by rewrite Hsame.
    + unfold current. by rewrite Hsame.
    + simpl. by rewrite Ha, Hc.
    + by rewrite Hsame, Hheap.
Qed.

Lemma bump_failure k v :
  wrap64 (failure (bump k v)) = wrap64 (failure v + counts_as k WFail).
Proof.
  destruct k; simpl; [by rewrite wrap64_idemp|by rewrite Z.add_0_r].
Qed.

Lemma bump_success k v :
  wrap64 (success (bump k v)) = wrap64 (success v + counts_as k WSuccess).
Proof.
  destruct k; simpl; [by rewrite Z.add_0_r|by rewrite wrap64_idemp].
Qed.

Lemma wrap64_sub_l a b c : wrap64 (wrap64 a - b + c) = wrap64 (a - b + c).
Proof.
  replace (wrap64 a - b + c) with (wrap64 a + (c - b)) by lia.
  rewrite wrap64_add_l. f_equal. lia.
Qed.

Lemma wrap64_shift a b c :
  wrap64 a = wrap64 b -> wrap64 (a + c) = wrap64 (b + c).
Proof. intros H. by rewrite <- wrap64_add_l, H, wrap64_add_l. Qed.

(** The exact effect of one write on the totals: the write itself is added,
    and when the write rotates, what the bucket rotated into held is
    taken away. *)
Theorem write_changes_totals (s : state) (k : write) (t_since t_now : Time)
    (Hwf : wf s) (Hne : buckets (self s) <> []) :
  exists s' a' w f su,
    do_write k t_since t_now s = Ok (tt, s') /\
    current s' = Some a' /\
    heap s !! a' = Some w /\
    Failures s = Ok (f, s) /\
    Successes s = Ok (su, s) /\
    let lost :=
      if Since (lastAccess (self s)) t_since >? bucketTime (self s)
      then w else zero_bucket in
    Failures s' = Ok (wrap64 (f - failure lost + counts_as k WFail), s') /\
    Successes s' = Ok (wrap64 (su - success lost + counts_as k WSuccess), s').
Proof.
  destruct (write_counts k t_since t_now s Hwf Hne)
    as (s' & a' & w & stale & vs & Hrun & _ & _ & _ & _ & Hcur & Hw & Hvs & Hif).
  exists s', a', w, (wrap64 (sumZ failure vs)), (wrap64 (sumZ success vs)).
  split_and!; try done.
  - by rewrite Failures_counts, Hvs.
  - by rewrite Successes_counts, Hvs.
  - cbv zeta. rewrite Failures_counts, Successes_counts.
    destruct (Since (lastAccess (self s)) t_since >? bucketTime (self s)).
    + destruct Hif as (_ & (v0 & rest & -> & Hrot) & ->).
      assert (Hsum : forall f, f v0 + sumZ f rest = f w + sumZ f stale).
      { intros f. change (f w + sumZ f stale) with (sumZ f (w :: stale)).
        rewrite <- Hrot, sumZ_app. simpl. lia. }
      split; do 2 f_equal; simpl; rewrite Hsum, wrap64_sub_l.
      * rewrite (wrap64_shift _ _ _ (bump_failure k zero_bucket)).
        f_equal. simpl. lia.
      * rewrite (wrap64_shift _ _ _ (bump_success k zero_bucket)).
        f_equal. simpl. lia.
    + destruct Hif as (_ & -> & ->).
      split; do 2 f_equal; simpl; rewrite wrap64_sub_l.
      * rewrite (wrap64_shift _ _ _ (bump_failure k w)). f_equal. lia.
      * rewrite (wrap64_shift _ _ _ (bump_success k w)). f_equal. lia.
Qed.

(** ** Counts are never invented *)

Lemma sumZ_nonneg f vs :
  Forall (fun v => 0 <= f v) vs -> 0 <= sumZ f vs.
Proof. induction 1 as [|v vs Hv _ IH]; simpl; lia. Qed.

Lemma nonneg_sums vs :
  Forall nonneg vs -> 0 <= sumZ failure vs /\ 0 <= sumZ success vs.
Proof.
  intros H. split; apply sumZ_nonneg; eapply Forall_impl; try exact H;
    by intros v [? ?].
Qed.

Lemma writes_of_nonneg k ops : 0 <= writes_of k ops.
Proof.
  induction ops as [|o ops IH]; simpl; [done|]. destruct o, k; lia.
Qed.

(** A bucket bumped below the int64 bound. *)
Lemma bump_small k x :
  nonneg x ->
  failure x + counts_as k WFail <= int64_max ->
  success x + counts_as k WSuccess <= int64_max ->
  nonneg (bump k x) /\
  failure (bump k x) = failure x + counts_as k WFail /\
  success (bump k x) = success x + counts_as k WSuccess.
Proof.
  intros [Hf Hs] HF HS. unfold nonneg.
  destruct k; simpl in *;
    rewrite wrap64_id by (unfold in_int64, int64_min; lia); lia.
Qed.

Lemma bounded_op o s vs Fb Sb :
  wf s -> buckets (self s) <> [] ->
  counts (heap s) (buckets (self s)) = Ok vs ->
  Forall nonneg vs ->
  sumZ failure vs <= Fb -> sumZ success vs <= Sb ->
  Fb + writes_of WFail [o] <= int64_max ->
  Sb + writes_of WSuccess [o] <= int64_max ->
  exists s' vs',
    exec_op o s = Ok (tt, s') /\
    wf s' /\ buckets (self s') <> [] /\
    counts (heap s') (buckets (self s')) = Ok vs' /\
    Forall nonneg vs' /\
    sumZ failure vs' <= Fb + writes_of WFail [o] /\
    sumZ success vs' <= Sb + writes_of WSuccess [o].
Proof.
  intros Hwf Hne Hvs Hpos HFb HSb HF HS.
  destruct (nonneg_sums _ Hpos) as [HF0 HS0].
  assert (Hwrite : forall k t1 t2,
            Fb + counts_as k WFail <= int64_max ->
            Sb + counts_as k WSuccess <= int64_max ->
            exists s' vs',
              do_write k t1 t2 s = Ok (tt, s') /\
              wf s' /\ buckets (self s') <> [] /\
              counts (heap s') (buckets (self s')) = Ok vs' /\
              Forall nonneg vs' /\
              sumZ failure vs' <= Fb + counts_as k WFail /\
              sumZ success vs' <= Sb + counts_as k WSuccess).
  { intros k t1 t2 HkF HkS.
    destruct (write_counts k t1 t2 s Hwf Hne)
      as (s' & a' & w & stale & vs0 & Hrun & Hwf' & Hne' & _ & _ & _ & _
          & Hvs0 & Hif).
    rewrite Hvs in Hvs0. injection Hvs0 as <-.
    assert (Hold : Forall nonneg (w :: stale) /\
                   sumZ failure (w :: stale) = sumZ failure vs /\
                   sumZ success (w :: stale) = sumZ success vs).
    { destruct (Since _ _ >? _).
      - destruct Hif as (_ & (v0 & rest & -> & Hrot) & _). rewrite <- Hrot.
        apply Forall_cons in Hpos as [Hv0 Hrest].
        split; [apply Forall_app; split; [done|by apply Forall_singleton]|].
        rewrite !sumZ_app. simpl. lia.
      - by destruct Hif as (_ & -> & _). }
    destruct Hold as (Hpos' & HsF & HsS).
    apply Forall_cons in Hpos' as [Hw Hstale].
    destruct (nonneg_sums _ Hstale) as [HstF HstS]. simpl in HsF, HsS.
    assert (Hzero : nonneg zero_bucket) by (split; simpl; lia).
    assert (Hnew : exists x, nonneg x /\ failure x <= failure w /\
                     success x <= success w /\
                     counts (heap s') (buckets (self s')) =
                     Ok (bump k x :: stale)).
    { destruct (Since _ _ >? _).
      - exists zero_bucket. destruct Hw. split_and!; [done|simpl; lia..|apply Hif].
      - exists w. split_and!; [done|lia..|apply Hif]. }
    destruct Hnew as (x & Hx & HxF & HxS & Hc').
    assert (counts_as k WFail >= 0 /\ counts_as k WSuccess >= 0)
      as [? ?] by (destruct k; simpl; lia).
    destruct (bump_small k x Hx) as (Hb & HbF & HbS); [lia..|].
    exists s', (bump k x :: stale). split_and!; try done.
    - by constructor.
    - simpl. lia.
    - simpl. lia. }
  destruct o as [t1 t2|t1 t2| | | |]; simpl in *.
  - apply (Hwrite WFail); simpl; lia.
  - apply (Hwrite WSuccess); simpl; lia.
  - exists s, vs. munfold. rewrite Failures_counts, Hvs.
    split_and!; try done; lia.
  - exists s, vs. munfold. rewrite Successes_counts, Hvs.
    split_and!; try done; lia.
  - exists s, vs. munfold. rewrite ErrorRate_counts, Hvs.
    split_and!; try done; lia.
  - rewrite Reset_eq by apply Hwf.
    eexists _, _. split; [done|]. split; [by apply wf_reset|].
    split; [done|]. simpl.
    split; [by apply counts_reset_all, Hwf|].
    split; [apply Forall_replicate; split; simpl; lia|].
    rewrite !sumZ_replicate_zero by done. lia.
Qed.

Lemma bounded_exec ops s vs Fb Sb :
  wf s -> buckets (self s) <> [] ->
  counts (heap s) (buckets (self s)) = Ok vs ->
  Forall nonneg vs ->
  sumZ failure vs <= Fb -> sumZ success vs <= Sb ->
  Fb + writes_of WFail ops <= int64_max ->
  Sb + writes_of WSuccess ops <= int64_max ->
  exists s' vs',
    exec ops s = Ok (tt, s') /\
    counts (heap s') (buckets (self s')) = Ok vs' /\
    Forall nonneg vs' /\
    sumZ failure vs' <= Fb + writes_of WFail ops /\
    sumZ success vs' <= Sb + writes_of WSuccess ops.
Proof.
  revert s vs Fb Sb.
  induction ops as [|o ops IH]; intros s vs Fb Sb Hwf Hne Hvs Hpos HFb HSb HF HS.
  - exists s, vs. simpl. split_and!; try done; lia.
  - pose proof (writes_of_nonneg WFail ops).
    pose proof (writes_of_nonneg WSuccess ops).
    assert (HoF : writes_of WFail (o :: ops)
                  = writes_of WFail [o] + writes_of WFail ops)
      by (simpl; lia).
    assert (HoS : writes_of WSuccess (o :: ops)
                  = writes_of WSuccess [o] + writes_of WSuccess ops)
      by (simpl; lia).
    destruct (bounded_op o s vs Fb Sb) as
      (s1 & vs1 & Hrun1 & Hwf1 & Hne1 & Hvs1 & Hpos1 & HF1 & HS1);
      try done; try lia.
    destruct (IH s1 vs1 (Fb + writes_of WFail [o]) (Sb + writes_of WSuccess [o]))
      as (s2 & vs2 & Hrun2 & Hvs2 & Hpos2 & HF2 & HS2); try done; try lia.
    exists s2, vs2. split_and!; try done; try lia.
    change (exec (o :: ops) s) with (bind (exec_op o) (fun _ => exec ops) s).
    unfold bind. by rewrite Hrun1.
Qed.

(** Counts are never invented: from a window whose buckets hold no negative
    count, any calls leave totals that are not negative and not above what
    the buckets held plus the number of [Fail] (of [Success]) calls made,
    as long as those bounds are int64 values. *)
Theorem totals_bounded_by_writes (s : state) (ops : list op)
    (vs : list bucket)
    (Hwf : wf s) (Hne : buckets (self s) <> [])
    (Hvs : counts (heap s) (buckets (self s)) = Ok vs)
    (Hpos : Forall nonneg vs)
    (HF : sumZ failure vs + writes_of WFail ops <= int64_max)
    (HS : sumZ success vs + writes_of WSuccess ops <= int64_max) :
  exists s' f su,
    exec ops s = Ok (tt, s') /\
    Failures s' = Ok (f, s') /\
    Successes s' = Ok (su, s') /\
    0 <= f <= sumZ failure vs + writes_of WFail ops /\
    0 <= su <= sumZ success vs + writes_of WSuccess ops.
Proof.
  destruct (bounded_exec ops s vs (sumZ failure vs) (sumZ success vs))
    as (s' & vs' & Hrun & Hvs' & Hpos' & HF' & HS'); try done; try lia.
  destruct (nonneg_sums _ Hpos') as [HF0 HS0].
  exists s', (sumZ failure vs'), (sumZ success vs').
  split_and!; try done; try lia.
  - rewrite Failures_counts, Hvs'.
    by rewrite wrap64_id by (unfold in_int64, int64_min; lia).
  - rewrite Successes_counts, Hvs'.
    by rewrite wrap64_id by (unfold in_int64, int64_min; lia).
Qed.

(** ** A full turn of the ring *)

(** Rotating writes, on the list of buckets. *)
Lemma rot_writes_shape cs :
  forall u old past,
    (length cs <= length old)%nat ->
    foldl (fun vs c => rot_write (kind c) vs) (u :: old ++ past) cs =
    fst (foldl trail_step (u, past) cs)
    :: drop (length cs) old ++ snd (foldl trail_step (u, past) cs).
Proof.
  induction cs as [|c cs IH]; intros u old past Hlen; [done|].
  destruct old as [|o old]; [simpl in Hlen; lia|].
  simpl. rewrite <- app_assoc. rewrite IH by (simpl in Hlen; lia). done.
Qed.

Lemma trail_sum f cs :
  forall u past,
    exists extra,
      snd (foldl trail_step (u, past) cs) = past ++ extra /\
      sumZ f (fst (foldl trail_step (u, past) cs) :: extra) =
      f u + sumZ f ((fun c => bump (kind c) zero_bucket) <$> cs).
Proof.
  induction cs as [|c cs IH]; intros u past.
  - exists []. simpl. by rewrite app_nil_r.
  - simpl foldl.
    change (trail_step (u, past) c) with (bump (kind c) zero_bucket, past ++ [u]).
    destruct (IH (bump (kind c) zero_bucket) (past ++ [u])) as (extra & Hsnd & Hsum).
    exists (u :: extra). split.
    + rewrite Hsnd. by rewrite <- app_assoc.
    + csimpl. simpl in Hsum. lia.
Qed.

(** As many rotating writes as there are buckets leave only themselves. *)
Lemma rot_writes_full f cs vs :
  length cs = length vs ->
  sumZ f (foldl (fun vs c => rot_write (kind c) vs) vs cs) =
  sumZ f ((fun c => bump (kind c) zero_bucket) <$> cs).
Proof.
  intros Hlen. destruct vs as [|u old]; [by destruct cs|].
  destruct (exists_last (l := cs)) as (cs1 & c & ->).
  { intros ->. done. }
  rewrite length_app in Hlen. simpl in Hlen.
  rewrite foldl_app, fmap_app, sumZ_app. simpl foldl.
  rewrite <- (app_nil_r old) at 1.
  rewrite rot_writes_shape by lia.
  replace (length cs1) with (length old) by lia. rewrite drop_all. simpl app.
  destruct (trail_sum f cs1 u []) as (extra & Hsnd & Hsum).
  rewrite Hsnd. simpl app.
  destruct cs1 as [|c1 cs1].
  - destruct old; [|simpl in Hlen; lia]. simpl in *.
    assert (extra = []) as -> by (by rewrite Hsnd). simpl. lia.
  - simpl foldl in *.
    change (trail_step (u, []) c1) with (bump (kind c1) zero_bucket, [u]) in *.
    destruct (trail_sum f cs1 (bump (kind c1) zero_bucket) [u])
      as (extra' & Hsnd' & Hsum').
    assert (extra = u :: extra') as ->.
    { simpl in Hsnd, Hsnd'. congruence. }
    unfold rot_write. simpl app. csimpl.
    rewrite sumZ_app. simpl. simpl in Hsum'. lia.
Qed.

Lemma turns_back (cs : list call) :
  forall l1 l2 : list (option nat),
    length cs = length l1 ->
    foldl (fun r _ => turn r) (l1 ++ l2) cs = l2 ++ l1.
Proof.
  induction cs as [|c cs IH]; intros l1 l2 Hlen.
  - destruct l1; [|done]. by rewrite app_nil_r.
  - destruct l1 as [|x l1]; [done|]. simpl.
    rewrite <- app_assoc, IH by (simpl in Hlen; lia).
    by rewrite <- app_assoc.
Qed.

(** Calls that all rotate, on the state. *)
Lemma stormy_exec cs :
  forall s vs,
    wf s -> buckets (self s) <> [] ->
    counts (heap s) (buckets (self s)) = Ok vs ->
    stormy (lastAccess (self s)) (bucketTime (self s)) cs ->
    exists s',
      exec (call_op <$> cs) s = Ok (tt, s') /\
      wf s' /\
      buckets (self s') = foldl (fun r _ => turn r) (buckets (self s)) cs /\
      counts (heap s') (buckets (self s')) =
      Ok (foldl (fun vs c => rot_write (kind c) vs) vs cs).
Proof.
  induction cs as [|c cs IH]; intros s vs Hwf Hne Hvs Hstorm.
  - by exists s.
  - destruct Hstorm as [Hgt Hstorm].
    destruct (write_counts (kind c) (read_since c) (read_now c) s Hwf Hne)
      as (s1 & a' & w & stale & vs0 & Hrun & Hwf1 & Hne1 & Hbt & Hlast & _ & _
          & Hvs0 & Hif).
    rewrite Hvs in Hvs0. injection Hvs0 as <-.
    destruct (Z.gtb_spec (Since (lastAccess (self s)) (read_since c))
                (bucketTime (self s))) as [_|Hle]; [|lia].
    destruct Hif as (Hnext & (v0 & rest & -> & Hrot) & Hc1).
    destruct (IH s1 (bump (kind c) zero_bucket :: stale)) as
      (s2 & Hrun2 & Hwf2 & Hring2 & Hc2); try done.
    { by rewrite Hbt, Hlast. }
    exists s2. split_and!; try done.
    + csimpl. munfold.
      assert (Hstep : exec_op (call_op c) s =
                      do_write (kind c) (read_since c) (read_now c) s).
      { unfold call_op. by destruct (kind c). }
      by rewrite Hstep, Hrun.
    + rewrite Hring2. simpl.
      destruct (buckets (self s)) as [|x r]; [done|].
      simpl in Hnext. by injection Hnext as <-.
    + rewrite Hc2. simpl. unfold rot_write at 2. by rewrite Hrot.
Qed.

Lemma sum_bumps_failure cs :
  sumZ failure ((fun c => bump (kind c) zero_bucket) <$> cs) = tally WFail cs.
Proof.
  induction cs as [|c cs IH]; [done|]. csimpl. rewrite IH.
  by destruct (kind c).
Qed.

Lemma sum_bumps_success cs :
  sumZ success ((fun c => bump (kind c) zero_bucket) <$> cs) = tally WSuccess cs.
Proof.
  induction cs as [|c cs IH]; [done|]. csimpl. rewrite IH.
  by destruct (kind c).
Qed.

(** A full turn forgets everything: when as many calls as the ring has
    buckets each find more than the bucket duration elapsed, the ring
    pointer is back where it was and the totals are exactly those calls. *)
Theorem full_turn_forgets (s : state) (cs : list call)
    (Hwf : wf s)
    (Hlen : length cs = length (buckets (self s)))
    (Hne : buckets (self s) <> [])
    (Hstorm : stormy (lastAccess (self s)) (bucketTime (self s)) cs)
    (Hcount : Z.of_nat (length cs) <= int64_max) :
  exists s',
    exec (call_op <$> cs) s = Ok (tt, s') /\
    buckets (self s') = buckets (self s) /\
    Failures s' = Ok (tally WFail cs, s') /\
    Successes s' = Ok (tally WSuccess cs, s').
Proof.
  destruct (counts_ok _ _ (wf_ptrs _ Hwf)) as (vs & Hvs & Hlenvs).
  destruct (stormy_exec cs s vs Hwf Hne Hvs Hstorm)
    as (s' & Hrun & _ & Hring & Hc).
  pose proof (tally_total cs) as Htot.
  pose proof (tally_nonneg WFail cs). pose proof (tally_nonneg WSuccess cs).
  exists s'. split_and!; try done.
  - rewrite Hring.
    rewrite <- (app_nil_r (buckets (self s))) at 1.
    by rewrite turns_back.
  - rewrite Failures_counts, Hc, rot_writes_full by congruence.
    rewrite sum_bumps_failure.
    by rewrite wrap64_id by (unfold in_int64, int64_min; lia).
  - rewrite Successes_counts, Hc, rot_writes_full by congruence.
    rewrite sum_bumps_success.
    by rewrite wrap64_id by (unfold in_int64, int64_min; lia).
Qed.

Lemma write_changes_totals_witness :
  wf busy /\ buckets (self busy) <> [] /\
  exists s' a' w f su,
    do_write WFail (6 * sec) (6 * sec) busy = Ok (tt, s') /\
    current s' = Some a' /\
    heap busy !! a' = Some w /\
    Failures busy = Ok (f, busy) /\
    Successes busy = Ok (su, busy) /\
    let lost :=
      if Since (lastAccess (self busy)) (6 * sec) >? bucketTime (self busy)
      then w else zero_bucket in
    Failures s' = Ok (wrap64 (f - failure lost + counts_as WFail WFail), s') /\
    Successes s' = Ok (wrap64 (su - success lost + counts_as WFail WSuccess), s').
Proof.
  split; [exact busy_wf|]. split; [discriminate|].
  apply (write_changes_totals busy WFail (6 * sec) (6 * sec) busy_wf).
  discriminate.
Defined.

Lemma busy_counts :
  counts (heap busy) (buckets (self busy)) = Ok busy_buckets.
Proof. reflexivity. Qed.

Lemma busy_nonneg : Forall nonneg busy_buckets.
Proof. repeat constructor; simpl; lia. Qed.

Lemma totals_bounded_by_writes_witness :
  wf busy /\ buckets (self busy) <> [] /\
  counts (heap busy) (buckets (self busy)) = Ok busy_buckets /\
  Forall nonneg busy_buckets /\
  sumZ failure busy_buckets + writes_of WFail mixed_ops <= int64_max /\
  sumZ success busy_buckets + writes_of WSuccess mixed_ops <= int64_max /\
  exists s' f su,
    exec mixed_ops busy = Ok (tt, s') /\
    Failures s' = Ok (f, s') /\
    Successes s' = Ok (su, s') /\
    0 <= f <= sumZ failure busy_buckets + writes_of WFail mixed_ops /\
    0 <= su <= sumZ success busy_buckets + writes_of WSuccess mixed_ops.
Proof.
  split; [exact busy_wf|]. split; [discriminate|].
  split; [exact busy_counts|]. split; [exact busy_nonneg|].
  split; [vm_compute; discriminate|]. split; [vm_compute; discriminate|].
  apply (totals_bounded_by_writes busy mixed_ops busy_buckets busy_wf);
    [discriminate|exact busy_counts|exact busy_nonneg
    |vm_compute; discriminate|vm_compute; discriminate].
Defined.

Lemma spaced_calls_stormy :
  stormy (lastAccess (self busy)) (bucketTime (self busy)) spaced_calls.
Proof. repeat split; vm_compute; reflexivity. Qed.

Lemma full_turn_forgets_witness :
  wf busy /\
  length spaced_calls = length (buckets (self busy)) /\
  buckets (self busy) <> [] /\
  stormy (lastAccess (self busy)) (bucketTime (self busy)) spaced_calls /\
  Z.of_nat (length spaced_calls) <= int64_max /\
  exists s',
    exec (call_op <$> spaced_calls) busy = Ok (tt, s') /\
    buckets (self s') = buckets (self busy) /\
    Failures s' = Ok (tally WFail spaced_calls, s') /\
    Successes s' = Ok (tally WSuccess spaced_calls, s').
Proof.
  split; [exact busy_wf|]. split; [reflexivity|]. split; [discriminate|].
  split; [exact spaced_calls_stormy|]. split; [vm_compute; discriminate|].
  apply (full_turn_forgets busy spaced_calls busy_wf);
    [reflexivity|discriminate|exact spaced_calls_stormy
    |vm_compute; discriminate].
Defined.

(** ** Writes that follow each other closely *)

(** However long it goes on, a stream of writes that each come no more than
    one bucket duration after the access before them never rotates the
    ring: every write lands in the bucket that was current at the start,
    and nothing is ever dropped from the totals. *)
Theorem close_writes_never_rotate (s : state) (cs : list call)
    (Hwf : wf s) (Hne : buckets (self s) <> [])
    (Hcalm : calm (lastAccess (self s)) (bucketTime (self s)) cs) :
  exists s' a f su,
    exec (call_op <$> cs) s = Ok (tt, s') /\
    current s = Some a /\
    buckets (self s') = buckets (self s) /\
    (forall a', a' <> a -> heap s' !! a' = heap s !! a') /\
    lastAccess (self s') = final_access (lastAccess (self s)) cs /\
    Failures s = Ok (f, s) /\
    Successes s = Ok (su, s) /\
    Failures s' = Ok (wrap64 (f + tally WFail cs), s') /\
    Successes s' = Ok (wrap64 (su + tally WSuccess cs), s').
Proof.
  destruct (read_total s (wf_ptrs s Hwf)) as (vs & _ & _ & HF & HS & _).
  destruct (calm_totals cs s _ _ Hwf Hne Hcalm HF HS)
    as (s' & a & Hrun & Hcur & Hring & Hframe & HF' & HS').
  exists s', a. eexists _, _. split_and!; try done.
  destruct (wf_head s Hwf Hne) as (a0 & rest & v & Hr & Ha).
  rewrite (calm_exec cs s a0 rest v Hr Ha Hcalm) in Hrun.
  by injection Hrun as <-.
Qed.

Lemma steady_calls_calm :
  calm (lastAccess (self fresh)) (bucketTime (self fresh)) steady_calls.
Proof. repeat split; vm_compute; discriminate. Qed.

Lemma close_writes_never_rotate_witness :
  wf fresh /\ buckets (self fresh) <> [] /\
  calm (lastAccess (self fresh)) (bucketTime (self fresh)) steady_calls /\
  exists s' a f su,
    exec (call_op <$> steady_calls) fresh = Ok (tt, s') /\
    current fresh = Some a /\
    buckets (self s') = buckets (self fresh) /\
    (forall a', a' <> a -> heap s' !! a' = heap fresh !! a') /\
    lastAccess (self s') = final_access (lastAccess (self fresh)) steady_calls /\
    Failures fresh = Ok (f, fresh) /\
    Successes fresh = Ok (su, fresh) /\
    Failures s' = Ok (wrap64 (f + tally WFail steady_calls), s') /\
    Successes s' = Ok (wrap64 (su + tally WSuccess steady_calls), s').
Proof.
  split; [exact fresh_wf|]. split; [discriminate|].
  split; [exact steady_calls_calm|].
  apply (close_writes_never_rotate fresh steady_calls fresh_wf);
    [discriminate|exact steady_calls_calm].
Defined.

(** ** Reset, then a write *)

Lemma sumZ_all_zero f vs :
  f zero_bucket = 0 -> Forall (fun v => v = zero_bucket) vs -> sumZ f vs = 0.
Proof.
  intros Hf. induction 1 as [|v vs -> _ IH]; simpl; [done|]. lia.
Qed.

(** One write on a window whose buckets are all empty. *)
Lemma write_on_empty k t1 t2 s :
  wf s -> buckets (self s) <> [] ->
  counts (heap s) (buckets (self s)) =
  Ok (replicate (length (buckets (self s))) zero_bucket) ->
  exists s',
    do_write k t1 t2 s = Ok (tt, s') /\
    Failures s' = Ok (counts_as k WFail, s') /\
    Successes s' = Ok (counts_as k WSuccess, s') /\
    ErrorRate s' =
    Ok (match k with WFail => float64_one | WSuccess => S754_zero false end, s').
Proof.
  intros Hwf Hne Hzero.
  destruct (write_counts k t1 t2 s Hwf Hne)
    as (s' & a' & w & stale & vs & Hrun & _ & _ & _ & _ & _ & _ & Hvs & Hif).
  rewrite Hzero in Hvs. injection Hvs as <-.
  assert (Hall : Forall (fun v => v = zero_bucket)
                   (replicate (length (buckets (self s))) zero_bucket)).
  { by apply Forall_replicate. }
  assert (Hc : counts (heap s') (buckets (self s')) =
               Ok (bump k zero_bucket :: stale) /\
               Forall (fun v => v = zero_bucket) stale).
  { destruct (Since _ _ >? _).
    - destruct Hif as (_ & (v0 & rest & Heq & Hrot) & Hc). split; [done|].
      rewrite Heq in Hall. apply Forall_cons in Hall as [Hv0 Hrest].
      assert (Hall' : Forall (fun v => v = zero_bucket) (rest ++ [v0])).
      { apply Forall_app. split; [done|by apply Forall_singleton]. }
      rewrite Hrot in Hall'. by apply Forall_cons in Hall' as [_ ?].
    - destruct Hif as (_ & Heq & Hc). rewrite Heq in Hall.
      apply Forall_cons in Hall as [-> Hstale]. done. }
  destruct Hc as [Hc Hstale].
  exists s'. split; [done|].
  rewrite Failures_counts, Successes_counts, ErrorRate_counts, Hc. cbv zeta.
  simpl sumZ. rewrite !sumZ_all_zero by done.
  by destruct k.
Qed.

(** After [Reset], one write of either kind and at any time leaves exactly
    that write in the totals, whether it rotates or not: the error rate is
    1.0 after [Fail] and 0.0 after [Success]. *)
Theorem write_after_Reset_counts_alone (s : state) (k : write)
    (t_since t_now : Time) (Hwf : wf s) (Hne : buckets (self s) <> []) :
  exists s1 s2,
    Reset s = Ok (tt, s1) /\
    do_write k t_since t_now s1 = Ok (tt, s2) /\
    Failures s2 = Ok (counts_as k WFail, s2) /\
    Successes s2 = Ok (counts_as k WSuccess, s2) /\
    ErrorRate s2 =
    Ok (match k with WFail => float64_one | WSuccess => S754_zero false end, s2).
Proof.
  pose proof (wf_ptrs _ Hwf) as Hp.
  destruct (write_on_empty k t_since t_now
              {| heap := reset_all (heap s) (buckets (self s)); self := self s |})
    as (s2 & Hrun & Hreads).
  - by apply wf_reset.
  - done.
  - simpl. by apply counts_reset_all.
  - eexists _, s2. split; [by apply Reset_eq|]. done.
Qed.

Lemma write_after_Reset_counts_alone_witness :
  wf busy /\ buckets (self busy) <> [] /\
  exists s1 s2,
    Reset busy = Ok (tt, s1) /\
    do_write WFail (9 * sec) (9 * sec) s1 = Ok (tt, s2) /\
    Failures s2 = Ok (counts_as WFail WFail, s2) /\
    Successes s2 = Ok (counts_as WFail WSuccess, s2) /\
    ErrorRate s2 = Ok (float64_one, s2).
Proof.
  split; [exact busy_wf|]. split; [discriminate|].
  apply (write_after_Reset_counts_alone busy WFail (9 * sec) (9 * sec) busy_wf).
  discriminate.
Defined.

(** ** What NewWindow builds *)

Lemma counts_all_zero (pre : list bucket) n :
  forall j,
    (forall i, (i < n)%nat -> pre !! (j + i)%nat = Some zero_bucket) ->
    counts pre (Some <$> seq j n) = Ok (replicate n zero_bucket).
Proof.
  induction n as [|n IH]; intros j H; [done|].
  csimpl. specialize (H 0%nat ltac:(lia)) as H0.
  rewrite Nat.add_0_r in H0. rewrite H0.
  rewrite (IH (S j)); [done|].
  intros i Hi. replace (S j + i)%nat with (j + S i)%nat by lia.
  apply H. lia.
Qed.

Lemma counts_fresh h n :
  counts (h ++ replicate n zero_bucket) (Some <$> seq (length h) n) =
  Ok (replicate n zero_bucket).
Proof.
  apply counts_all_zero. intros i Hi.
  rewrite lookup_app_r by lia.
  apply lookup_replicate_2. lia.
Qed.

(** [NewWindow] with one bucket or more: the ring has that many elements,
    each holding its own new empty bucket, allocated after the buckets
    that were there, and the ring pointer is at the first of them; the
    bucket duration is the truncated quotient; every read returns zero. *)
Theorem NewWindow_builds_empty_ring (windowTime windowBuckets : Z)
    (now : Time) (h : list bucket) (Hn : 1 <= windowBuckets) :
  exists s,
    construct windowTime windowBuckets now h = Ok s /\
    wf s /\
    heap s = h ++ replicate (Z.to_nat windowBuckets) zero_bucket /\
    buckets (self s) = Some <$> seq (length h) (Z.to_nat windowBuckets) /\
    bucketTime (self s) = wrap64 (Z.quot windowTime windowBuckets) /\
    lastAccess (self s) = now /\
    Failures s = Ok (0, s) /\
    Successes s = Ok (0, s) /\
    ErrorRate s = Ok (S754_zero false, s).
Proof.
  destruct (construct_pos windowTime windowBuckets now h Hn)
    as (s & Hs & Hwf & _).
  exists s. split; [done|]. split; [done|].
  unfold construct in Hs. rewrite NewWindow_pos in Hs by done.
  injection Hs as <-. simpl. split_and!; try done.
  - rewrite Failures_counts. simpl. rewrite counts_fresh.
    by rewrite sumZ_replicate_zero.
  - rewrite Successes_counts. simpl. rewrite counts_fresh.
    by rewrite sumZ_replicate_zero.
  - rewrite ErrorRate_counts. simpl. rewrite counts_fresh. cbv zeta.
    by rewrite !sumZ_replicate_zero.
Qed.

Lemma NewWindow_builds_empty_ring_witness :
  1 <= DefaultWindowBuckets /\
  exists s,
    construct DefaultWindowTime DefaultWindowBuckets 7 [zero_bucket] = Ok s /\
    wf s /\
    heap s = [zero_bucket] ++ replicate (Z.to_nat DefaultWindowBuckets) zero_bucket /\
    buckets (self s) =
    Some <$> seq (length [zero_bucket]) (Z.to_nat DefaultWindowBuckets) /\
    bucketTime (self s) = wrap64 (Z.quot DefaultWindowTime DefaultWindowBuckets) /\
    lastAccess (self s) = 7 /\
    Failures s = Ok (0, s) /\
    Successes s = Ok (0, s) /\
    ErrorRate s = Ok (S754_zero false, s).
Proof.
  split; [vm_compute; discriminate|].
  apply (NewWindow_builds_empty_ring DefaultWindowTime DefaultWindowBuckets 7
           [zero_bucket]).
  vm_compute. discriminate.
Defined.

(** The bucket duration of a window of a non-negative duration: the
    buckets together cover the window but for the remainder of the
    division, less than one nanosecond a bucket; it is zero exactly when
    the window has fewer nanoseconds than buckets. *)
Theorem bucketTime_covers_window (windowTime windowBuckets : Z) (now : Time)
    (h : list bucket)
    (Hn : 1 <= windowBuckets) (Hw : 0 <= windowTime <= int64_max) :
  exists s,
    construct windowTime windowBuckets now h = Ok s /\
    0 <= bucketTime (self s) /\
    windowBuckets * bucketTime (self s) <= windowTime
    < windowBuckets * bucketTime (self s) + windowBuckets /\
    (bucketTime (self s) = 0 <-> windowTime < windowBuckets).
Proof.
  destruct (construct_pos windowTime windowBuckets now h Hn)
    as (s & Hs & _ & _ & _ & Hbt & _).
  exists s. split; [done|]. rewrite Hbt.
  rewrite Z.quot_div_nonneg by lia.
  pose proof (Z.div_pos windowTime windowBuckets ltac:(lia) ltac:(lia)).
  pose proof (Z.mul_div_le windowTime windowBuckets ltac:(lia)).
  pose proof (Z.mul_succ_div_gt windowTime windowBuckets ltac:(lia)).
  assert (windowTime / windowBuckets <= windowTime) by nia.
  rewrite wrap64_id by (unfold in_int64, int64_min; lia).
  split_and!; try lia.
  split; intros; nia.
Qed.

Lemma bucketTime_covers_window_witness :
  1 <= 3 /\ 0 <= 10 * sec <= int64_max /\
  exists s,
    construct (10 * sec) 3 0 [] = Ok s /\
    0 <= bucketTime (self s) /\
    3 * bucketTime (self s) <= 10 * sec < 3 * bucketTime (self s) + 3 /\
    (bucketTime (self s) = 0 <-> 10 * sec < 3).
Proof.
  split; [lia|]. split; [vm_compute; split; discriminate|].
  apply (bucketTime_covers_window (10 * sec) 3 0 []); [lia|].
  vm_compute. split; discriminate.
Defined.

(** ** What no call changes *)

Lemma rotation_of_refl r : rotation_of r r.
Proof. exists [], r. by rewrite app_nil_r. Qed.

Lemma rotation_of_turn r r' r'' :
  rotation_of r r' -> ring_Next r' = Ok r'' -> rotation_of r r''.
Proof.
  intros (l1 & l2 & -> & ->) Hnext.
  destruct l2 as [|x l2]; simpl in Hnext.
  - destruct l1 as [|x l1]; [done|]. injection Hnext as <-.
    exists [x], l1. by rewrite app_nil_r.
  - injection Hnext as <-. exists (l1 ++ [x]), l2.
    by rewrite <- !app_assoc.
Qed.

Lemma rotation_of_elem r r' (x : option nat) :
  rotation_of r r' -> x ∈ r' <-> x ∈ r.
Proof. intros (l1 & l2 & -> & ->). rewrite !elem_of_app. tauto. Qed.

(** A write stores into the bucket that is current after it, and into no
    other. *)
Lemma write_rotates_from s k t1 t2 :
  wf s -> buckets (self s) <> [] ->
  exists s' a x,
    do_write k t1 t2 s = Ok (tt, s') /\
    wf s' /\ buckets (self s') <> [] /\
    bucketTime (self s') = bucketTime (self s) /\
    (buckets (self s') = buckets (self s) \/
     ring_Next (buckets (self s)) = Ok (buckets (self s'))) /\
    current s' = Some a /\
    heap s' = <[a := x]> (heap s).
Proof.
  intros Hwf Hne.
  destruct (write_outcome k t1 t2 s Hwf Hne)
    as (s' & Hrun & Hwf' & Hbt & _ & Hrot & Hstay).
  destruct (Z_le_gt_dec (Since (lastAccess (self s)) t1) (bucketTime (self s)))
    as [Hle|Hgt].
  - destruct (Hstay Hle) as (a & v & Hcur & Ha & Hsame & Hheap).
    exists s', a, (bump k v). split_and!; try done.
    + by rewrite Hsame.
    + by left.
    + unfold current in *. by rewrite Hsame.
  - destruct (Hrot Hgt) as (a & Hnext & Hcur & Hheap).
    exists s', a, (bump k zero_bucket). split_and!; try done.
    + intros E. unfold current in Hcur. by rewrite E in Hcur.
    + by right.
Qed.

(** One call: the window keeps its shape. *)
Lemma shape_op o s :
  wf s -> buckets (self s) <> [] ->
  exists s',
    exec_op o s = Ok (tt, s') /\
    wf s' /\ buckets (self s') <> [] /\
    bucketTime (self s') = bucketTime (self s) /\
    length (heap s') = length (heap s) /\
    (buckets (self s') = buckets (self s) \/
     ring_Next (buckets (self s)) = Ok (buckets (self s'))) /\
    (forall a, Some a ∉ buckets (self s) -> heap s' !! a = heap s !! a).
Proof.
  intros Hwf Hne.
  assert (Hwrite : forall k t1 t2,
            exists s',
              do_write k t1 t2 s = Ok (tt, s') /\
              wf s' /\ buckets (self s') <> [] /\
              bucketTime (self s') = bucketTime (self s) /\
              length (heap s') = length (heap s) /\
              (buckets (self s') = buckets (self s) \/
               ring_Next (buckets (self s)) = Ok (buckets (self s'))) /\
              (forall a, Some a ∉ buckets (self s) ->
                         heap s' !! a = heap s !! a)).
  { intros k t1 t2.
    destruct (write_rotates_from s k t1 t2 Hwf Hne)
      as (s' & a & x & Hrun & Hwf' & Hne' & Hbt & Hmove & Hcur & Hheap).
    exists s'. split_and!; try done.
    - by rewrite Hheap, length_insert.
    - assert (Hin' : Some a ∈ buckets (self s')).
      { unfold current in Hcur.
        destruct (buckets (self s')) as [|[b|] r']; try done.
        injection Hcur as ->. apply list_elem_of_here. }
      assert (Hin : Some a ∈ buckets (self s)).
      { destruct Hmove as [Hsame|Hnext]; [by rewrite <- Hsame|].
        assert (Hrot : rotation_of (buckets (self s)) (buckets (self s'))).
        { apply (rotation_of_turn _ (buckets (self s)));
            [apply rotation_of_refl|exact Hnext]. }
        by apply (rotation_of_elem _ _ _ Hrot). }
      intros a' Ha'. rewrite Hheap. apply list_lookup_insert_ne.
      intros Heq. subst a'. by apply Ha'. }
  destruct (read_total s (wf_ptrs s Hwf)) as (vs & _ & _ & HF & HS & HE).
  destruct o as [t1 t2|t1 t2| | | |]; simpl.
  - apply (Hwrite WFail).
  - apply (Hwrite WSuccess).
  - exists s. munfold. rewrite HF. split_and!; try done. by left.
  - exists s. munfold. rewrite HS. split_and!; try done. by left.
  - exists s. munfold. rewrite HE. split_and!; try done. by left.
  - rewrite Reset_eq by apply Hwf. eexists. split; [done|].
    split; [by apply wf_reset|]. simpl. split_and!; try done.
    + apply length_reset_all.
    + by left.
    + intros a Ha. by apply reset_all_notin.
Qed.

Lemma rotation_of_trans r r' r'' :
  rotation_of r r' -> rotation_of r' r'' -> rotation_of r r''.
Proof.
  intros (l1 & l2 & -> & ->) (k1 & k2 & E & ->).
  apply app_eq_inv in E as [(d & -> & ->)|(d & -> & ->)].
  - exists (l1 ++ k1), d. by rewrite <- !app_assoc.
  - exists d, (k2 ++ l2). by rewrite <- !app_assoc.
Qed.

Lemma shape_exec ops :
  forall s,
    wf s -> buckets (self s) <> [] ->
    exists s',
      exec ops s = Ok (tt, s') /\
      wf s' /\ buckets (self s') <> [] /\
      bucketTime (self s') = bucketTime (self s) /\
      length (heap s') = length (heap s) /\
      rotation_of (buckets (self s)) (buckets (self s')) /\
      (forall a, Some a ∉ buckets (self s) -> heap s' !! a = heap s !! a).
Proof.
  induction ops as [|o ops IH]; intros s Hwf Hne.
  - exists s. split_and!; try done. apply rotation_of_refl.
  - destruct (shape_op o s Hwf Hne)
      as (s1 & Hrun1 & Hwf1 & Hne1 & Hbt1 & Hlen1 & Hmove1 & Hframe1).
    destruct (IH s1 Hwf1 Hne1)
      as (s2 & Hrun2 & Hwf2 & Hne2 & Hbt2 & Hlen2 & Hrot2 & Hframe2).
    assert (Hrot1 : rotation_of (buckets (self s)) (buckets (self s1))).
    { destruct Hmove1 as [->|Hnext]; [apply rotation_of_refl|].
      by apply (rotation_of_turn _ (buckets (self s)));
        [apply rotation_of_refl|]. }
    exists s2. split_and!; try done; try congruence.
    + simpl. munfold. by rewrite Hrun1.
    + by apply (rotation_of_trans _ (buckets (self s1))).
    + intros a Ha. rewrite Hframe2, Hframe1; try done.
      intros Hin. apply Ha. by apply (rotation_of_elem _ _ _ Hrot1).
Qed.

(** Whatever calls are made, a window stays what [NewWindow] made it: the
    same buckets in the same ring order, seen from another element at most,
    the same bucket duration, no bucket allocated, and no bucket outside
    its ring written. *)
Theorem calls_keep_the_ring (s : state) (ops : list op)
    (Hwf : wf s) (Hne : buckets (self s) <> []) :
  exists s',
    exec ops s = Ok (tt, s') /\
    wf s' /\
    bucketTime (self s') = bucketTime (self s) /\
    length (heap s') = length (heap s) /\
    rotation_of (buckets (self s)) (buckets (self s')) /\
    (forall a, Some a ∉ buckets (self s) -> heap s' !! a = heap s !! a).
Proof.
  destruct (shape_exec ops s Hwf Hne)
    as (s' & Hrun & Hwf' & _ & Hbt & Hlen & Hrot & Hframe).
  by exists s'.
Qed.

Lemma calls_keep_the_ring_witness :
  wf busy /\ buckets (self busy) <> [] /\
  exists s',
    exec mixed_ops busy = Ok (tt, s') /\
    wf s' /\
    bucketTime (self s') = bucketTime (self busy) /\
    length (heap s') = length (heap busy) /\
    rotation_of (buckets (self busy)) (buckets (self s')) /\
    (forall a, Some a ∉ buckets (self busy) -> heap s' !! a = heap busy !! a).
Proof.
  split; [exact busy_wf|]. split; [discriminate|].
  apply (calls_keep_the_ring busy mixed_ops busy_wf). discriminate.
Defined.

(** ** Two windows *)

(** Two windows, the second built after the first has been used: whatever
    calls the second then receives, the buckets of the first are as they
    were, and its reads return what they returned before. *)
Theorem windows_do_not_interfere
    (timeA countA timeB countB : Z) (nowA nowB : Time) (h : list bucket)
    (opsA opsB : list op) (sA0 sA sB sB' : state)
    (HcountA : 1 <= countA) (HcountB : 1 <= countB)
    (HA : construct timeA countA nowA h = Ok sA0)
    (HopsA : exec opsA sA0 = Ok (tt, sA))
    (HB : construct timeB countB nowB (heap sA) = Ok sB)
    (HopsB : exec opsB sB = Ok (tt, sB')) :
  let sA' := {| heap := heap sB'; self := self sA |} in
  wf sA' /\
  (forall a, Some a ∈ buckets (self sA) -> heap sB' !! a = heap sA !! a) /\
  exists f su e,
    Failures sA = Ok (f, sA) /\ Failures sA' = Ok (f, sA') /\
    Successes sA = Ok (su, sA) /\ Successes sA' = Ok (su, sA') /\
    ErrorRate sA = Ok (e, sA) /\ ErrorRate sA' = Ok (e, sA').
Proof.
  intros sA'.
  destruct (construct_pos timeA countA nowA h HcountA)
    as (s & Hs & Hwf0 & Hne0 & _).
  rewrite HA in Hs. injection Hs as <-.
  destruct (shape_exec opsA sA0 Hwf0 Hne0) as (s & Hs & HwfA & _).
  rewrite HopsA in Hs. injection Hs as <-.
  destruct (construct_pos timeB countB nowB (heap sA) HcountB)
    as (s & Hs & HwfB & HneB & _).
  rewrite HB in Hs. injection Hs as <-.
  pose proof HB as HB'. unfold construct in HB'.
  rewrite NewWindow_pos in HB' by done. injection HB' as HB'.
  destruct (shape_exec opsB sB HwfB HneB)
    as (s & Hs & _ & _ & _ & HlenB & _ & HframeB).
  rewrite HopsB in Hs. injection Hs as <-.
  assert (Hsame : forall a, Some a ∈ buckets (self sA) ->
                            heap sB' !! a = heap sA !! a).
  { intros a Ha.
    pose proof (wf_ptrs _ HwfA) as Hp. unfold ptrs_ok in Hp.
    rewrite Forall_forall in Hp. destruct (Hp _ Ha) as (b & Heq & Hb).
    injection Heq as <-. apply lookup_lt_is_Some in Hb.
    rewrite HframeB.
    - rewrite <- HB'. simpl. by apply lookup_app_l.
    - rewrite <- HB'. simpl. intros Hin.
      apply list_elem_of_fmap in Hin as (j & Hj & Hin).
      injection Hj as <-. apply elem_of_seq in Hin. lia. }
  assert (Hc : counts (heap sB') (buckets (self sA)) =
               counts (heap sA) (buckets (self sA))).
  { by apply counts_agree. }
  assert (HwfA' : wf sA').
  { destruct HwfA as [Hp Hn Hb]. constructor; simpl; [|done|done].
    unfold ptrs_ok in *. rewrite Forall_forall in *.
    intros x Hx. destruct (Hp x Hx) as (a & -> & Ha).
    exists a. split; [done|]. by rewrite Hsame. }
  split; [done|]. split; [done|].
  destruct (read_total sA (wf_ptrs _ HwfA)) as (vs & Hvs & _ & HF & HS & HE).
  eexists _, _, _. split; [exact HF|]. split.
  { rewrite Failures_counts. subst sA'. simpl. by rewrite Hc, Hvs. }
  split; [exact HS|]. split.
  { rewrite Successes_counts. subst sA'. simpl. by rewrite Hc, Hvs. }
  split; [exact HE|].
  rewrite ErrorRate_counts. subst sA'. simpl. by rewrite Hc, Hvs.
Qed.

Lemma windows_do_not_interfere_witness :
  1 <= 3 /\ 1 <= 2 /\
  construct (3 * sec) 3 0 [] = Ok fresh /\
  exec busy_calls fresh = Ok (tt, busy) /\
  construct (2 * sec) 2 (5 * sec) (heap busy) = Ok second /\
  exec second_ops second = Ok (tt, second_after) /\
  let sA' := {| heap := heap second_after; self := self busy |} in
  wf sA' /\
  (forall a, Some a ∈ buckets (self busy) ->
             heap second_after !! a = heap busy !! a) /\
  exists f su e,
    Failures busy = Ok (f, busy) /\ Failures sA' = Ok (f, sA') /\
    Successes busy = Ok (su, busy) /\ Successes sA' = Ok (su, sA') /\
    ErrorRate busy = Ok (e, busy) /\ ErrorRate sA' = Ok (e, sA').
Proof.
  split; [lia|]. split; [lia|].
  split; [vm_compute; reflexivity|]. split; [vm_compute; reflexivity|].
  split; [vm_compute; reflexivity|]. split; [vm_compute; reflexivity|].
  apply (windows_do_not_interfere (3 * sec) 3 (2 * sec) 2 0 (5 * sec) []
           busy_calls second_ops fresh busy second second_after);
    first [lia|vm_compute; reflexivity].
Defined.

Example second_window_totals :
  Failures second_after = Ok (1, second_after) /\
  Failures {| heap := heap second_after; self := self busy |} =
  Ok (6, {| heap := heap second_after; self := self busy |}).
Proof. split; vm_compute; reflexivity. Qed.

(** ** Concurrent writers, whatever the timing *)

Lemma run_alone_end k t1 t2 p s :
  local_step t1 t2 p = None -> run_alone k t1 t2 p s = Ok (p, s).
Proof. intros H. destruct k; simpl; [done|]. by rewrite H. Qed.

Lemma run_alone_add k j t1 t2 p s :
  run_alone (k + j) t1 t2 p s =
  match run_alone k t1 t2 p s with
  | Ok (p', s') => run_alone j t1 t2 p' s'
  | Panic e => Panic e
  end.
Proof.
  revert p s. induction k as [|k IH]; intros p s; [done|].
  simpl. destruct (local_step t1 t2 p) as [m|] eqn:Hloc.
  - munfold. destruct (m s) as [[p1 s1]|]; [apply IH|done].
  - unfold ret. symmetry. by apply run_alone_end.
Qed.

Lemma run_alone_snoc k t1 t2 p0 s p s1 m p' s2 :
  run_alone k t1 t2 p0 s = Ok (p, s1) ->
  local_step t1 t2 p = Some m ->
  m s1 = Ok (p', s2) ->
  run_alone (k + 1) t1 t2 p0 s = Ok (p', s2).
Proof.
  intros Hk Hloc Hm. rewrite run_alone_add, Hk. simpl. rewrite Hloc.
  munfold. by rewrite Hm.
Qed.

(** A goroutine that has got to [Unlock] has done what [Fail] does. *)
Lemma run_alone_reaches_Fail k t1 t2 s s' :
  run_alone k t1 t2 AtRead s = Ok (AtUnlock, s') ->
  Fail t1 t2 s = Ok (tt, s').
Proof.
  intros Hk.
  assert (H : run_alone (k + 8) t1 t2 AtRead s = Ok (AtUnlock, s')).
  { rewrite run_alone_add, Hk. by apply run_alone_end. }
  rewrite Nat.add_comm, run_alone_add in H.
  pose proof (run_alone_is_Fail t1 t2 s) as HF.
  destruct (run_alone 8 t1 t2 AtRead s) as [[p s'']|]; [|done].
  destruct HF as [-> HF]. rewrite run_alone_end in H by done.
  by injection H as <-.
Qed.

Lemma run_alone_rank k t1 t2 p0 s p s' :
  run_alone k t1 t2 p0 s = Ok (p, s') ->
  is_Some (local_step t1 t2 p) ->
  (rank p0 + k <= rank p)%nat.
Proof.
  revert p0 s. induction k as [|k IH]; intros p0 s Hk Hp; simpl in Hk.
  - injection Hk as <- <-. lia.
  - destruct (local_step t1 t2 p0) as [m|] eqn:Hloc.
    + munfold_in Hk. destruct (m s) as [[p1 s1]|] eqn:Hm; [|done].
      pose proof (local_step_rank _ _ _ _ _ _ _ Hloc Hm).
      specialize (IH _ _ Hk Hp). lia.
    + injection Hk as <- <-. rewrite Hloc in Hp. by destruct Hp.
Qed.

Lemma local_step_target t1 t2 p m s p' s' :
  local_step t1 t2 p = Some m ->
  m s = Ok (p', s') ->
  p' <> AtLock /\ p' <> Finished /\
  (p' = AtUnlock \/ is_Some (local_step t1 t2 p')).
Proof.
  destruct p; simpl; intros [= <-]; munfold; intros Hm.
  - destruct (buckets (self s)) as [|[b|] r]; simpl in Hm; try done.
    injection Hm as <- <-. split_and!; try done. right. by eexists.
  - destruct (Since _ _ >? _); injection Hm as <- <-;
      (split_and!; try done; right; by eexists).
  - destruct (buckets (self s)) as [|x r]; simpl in Hm; try done.
    injection Hm as <- <-. split_and!; try done. right. by eexists.
  - destruct (buckets (self s)) as [|[b|] r]; simpl in Hm; try done.
    injection Hm as <- <-. split_and!; try done. right. by eexists.
  - destruct (bucket_Reset b s) as [[[] s1]|]; try done.
    injection Hm as <- <-. split_and!; try done. right. by eexists.
  - injection Hm as <- <-. split_and!; try done. right. by eexists.
  - unfold load in Hm. destruct (heap s !! b); try done.
    injection Hm as <- <-. split_and!; try done. right. by eexists.
  - destruct (set_failure b _ s) as [[[] s1]|]; try done.
    injection Hm as <- <-. split_and!; try done. by left.
Qed.

Lemma body_pc t1 t2 p :
  is_Some (local_step t1 t2 p) ->
  credit p = 0 /\ p <> AtLock /\ (rank p <= 8)%nat.
Proof. destruct p; simpl; intros [m Hm]; try done; split_and!; try done; lia. Qed.

Lemma readings_insert (gs : list goroutine) (i : nat) g p :
  gs !! i = Some g ->
  readings <$> <[i := goto g p]> gs = readings <$> gs.
Proof.
  intros Hi. rewrite list_fmap_insert. apply list_insert_id.
  rewrite list_lookup_fmap, Hi. done.
Qed.

Lemma credited_readings_insert (gs : list goroutine) (i : nat) g p :
  gs !! i = Some g ->
  (credit p = credit (ctl g) ->
   credited_readings (<[i := goto g p]> gs) = credited_readings gs) /\
  (credit (ctl g) = 0 -> credit p = 1 ->
   credited_readings (<[i := goto g p]> gs)
   ≡ₚ readings g :: credited_readings gs).
Proof.
  revert i. induction gs as [|g0 gs IH]; intros [|i] Hi; try done; simpl in *.
  - injection Hi as ->. split.
    + intros ->. done.
    + intros -> ->. done.
  - destruct (IH i Hi) as [IH1 IH2]. split.
    + intros H. by rewrite IH1.
    + intros H0 H1. destruct (credit (ctl g0) =? 1).
      * rewrite IH2 by done. apply Permutation_swap.
      * by apply IH2.
Qed.

Lemma credited_readings_finished gs :
  Forall (fun g => ctl g = Finished) gs ->
  credited_readings gs = readings <$> gs.
Proof.
  induction 1 as [|g gs Hg _ IH]; [done|]. csimpl. by rewrite Hg, IH.
Qed.

Lemma exec_app ops1 ops2 s :
  exec (ops1 ++ ops2) s =
  match exec ops1 s with
  | Ok (_, s') => exec ops2 s'
  | Panic e => Panic e
  end.
Proof.
  revert s. induction ops1 as [|o ops1 IH]; intros s; [done|].
  simpl. munfold. destruct (exec_op o s) as [[[] s1]|]; [apply IH|done].
Qed.

Lemma spawn_readings clocks s : readings <$> routines (spawn s clocks) = clocks.
Proof.
  simpl. induction clocks as [|[t1 t2] clocks IH]; [done|]. csimpl.
  by rewrite IH.
Qed.

Lemma spawn_credited clocks s : credited_readings (routines (spawn s clocks)) = [].
Proof. simpl. induction clocks as [|ck clocks IH]; [done|]. by csimpl. Qed.

Lemma linearized_spawn s clocks : linearized s clocks (spawn s clocks).
Proof.
  constructor; [apply spawn_readings|].
  exists [], s. rewrite spawn_credited. split; [done|]. split; [done|].
  simpl. split; [done|]. intros i g Hi.
  apply list_lookup_fmap_Some in Hi as (ck & -> & _). by left.
Qed.

Lemma linearized_step s0 clocks c c' :
  linearized s0 clocks c -> step c c' -> linearized s0 clocks c'.
Proof.
  intros [Hclk (order & s_lin & Hperm & Hexec & Hlock)] Hstep.
  destruct Hstep as [c i g Hi Hctl Hfree|c i g m p' s' Hi Hloc Hm|c i g Hi Hctl].
  - (* Lock *)
    rewrite Hfree in Hlock. destruct Hlock as [Hshared Hout].
    constructor; simpl; [by rewrite readings_insert|].
    exists order, s_lin. split_and!; try done.
    + destruct (credited_readings_insert (routines c) i g AtRead Hi) as [Heq _].
      by rewrite Heq by (by rewrite Hctl).
    + exists (goto g AtRead). split_and!.
      * apply list_lookup_insert_eq. by apply lookup_lt_is_Some; eexists.
      * intros j g' Hne Hj. rewrite list_lookup_insert_ne in Hj by done.
        by eapply Hout.
      * right. split_and!; try done. exists 0%nat. simpl. by rewrite Hshared.
  - (* a step of the body *)
    assert (Hbody : is_Some (local_step (since_reading g) (now_reading g) (ctl g)))
      by (by eexists).
    destruct (body_pc _ _ _ Hbody) as (Hcr & HnotLock & _).
    assert (Hnot : ~ (ctl g = AtLock \/ ctl g = Finished)).
    { intros [E|E]; rewrite E in Hloc; done. }
    destruct (lock c) as [h|] eqn:Hheld.
    2: { destruct Hlock as [_ Hout]. by destruct Hnot; eapply Hout. }
    destruct Hlock as (gh & Hh & Hout & Hwhere).
    destruct (decide (i = h)) as [->|Hne].
    2: { by destruct Hnot; eapply Hout. }
    assert (gh = g) as -> by congruence.
    destruct Hwhere as [[E _]|(_ & _ & k & Hk)].
    { rewrite E in Hloc. done. }
    pose proof (run_alone_snoc _ _ _ _ _ _ _ _ _ _ Hk Hloc Hm) as Hk'.
    destruct (local_step_target _ _ _ _ _ _ _ Hloc Hm)
      as (Hp1 & Hp2 & [->|Hnext]).
    + (* the call is complete *)
      apply run_alone_reaches_Fail in Hk'.
      constructor; simpl; [by rewrite readings_insert|].
      exists (order ++ [readings g]), s'. split_and!.
      * destruct (credited_readings_insert (routines c) h g AtUnlock Hi)
          as [_ Heq].
        rewrite Heq by done.
        rewrite <- Hperm. symmetry. apply Permutation_cons_append.
      * rewrite fmap_app, exec_app, Hexec. simpl. munfold. by rewrite Hk'.
      * exists (goto g AtUnlock). split_and!.
        -- apply list_lookup_insert_eq. by apply lookup_lt_is_Some; eexists.
        -- intros j g' Hne Hj. rewrite list_lookup_insert_ne in Hj by done.
           by eapply Hout.
        -- by left.
    + destruct (body_pc _ _ _ Hnext) as (Hcr' & HnotLock' & _).
      constructor; simpl; [by rewrite readings_insert|].
      exists order, s_lin. split_and!; try done.
      * destruct (credited_readings_insert (routines c) h g p' Hi) as [Heq _].
        by rewrite Heq by congruence.
      * exists (goto g p'). split_and!.
        -- apply list_lookup_insert_eq. by apply lookup_lt_is_Some; eexists.
        -- intros j g' Hne Hj. rewrite list_lookup_insert_ne in Hj by done.
           by eapply Hout.
        -- right. split_and!; try done. by exists (k + 1)%nat.
  - (* Unlock *)
    assert (Hnot : ~ (ctl g = AtLock \/ ctl g = Finished)).
    { intros [E|E]; rewrite E in Hctl; done. }
    destruct (lock c) as [h|] eqn:Hheld.
    2: { destruct Hlock as [_ Hout]. by destruct Hnot; eapply Hout. }
    destruct Hlock as (gh & Hh & Hout & Hwhere).
    destruct (decide (i = h)) as [->|Hne].
    2: { by destruct Hnot; eapply Hout. }
    assert (gh = g) as -> by congruence.
    destruct Hwhere as [[_ Hshared]|(Hcr & _)].
    2: { rewrite Hctl in Hcr. done. }
    constructor; simpl; [by rewrite readings_insert|].
    exists order, s_lin. split_and!; try done.
    + destruct (credited_readings_insert (routines c) h g Finished Hi) as [Heq _].
      by rewrite Heq by (by rewrite Hctl).
    + intros j g' Hj. apply lookup_goto in Hj as [[-> ->]|[Hne Hj]].
      * by right.
      * by eapply Hout.
Qed.

Lemma linearized_steps s0 clocks n c c' :
  linearized s0 clocks c -> steps n c c' -> linearized s0 clocks c'.
Proof.
  intros Hlin Hrun. induction Hrun as [c|n c c1 c2 Hstep _ IH]; [done|].
  apply IH. by eapply linearized_step.
Qed.

(** When every goroutine has finished, the shared state is what the calls
    give one after the other, in some order. *)
Lemma linearized_finished s0 clocks c :
  linearized s0 clocks c -> all_finished c ->
  lock c = None /\
  exists order,
    order ≡ₚ clocks /\ exec (fail_op <$> order) s0 = Ok (tt, shared c).
Proof.
  intros [Hclk (order & s_lin & Hperm & Hexec & Hlock)] Hall.
  rewrite (credited_readings_finished _ Hall), Hclk in Hperm.
  unfold all_finished in Hall. rewrite Forall_lookup in Hall.
  destruct (lock c) as [h|].
  - destruct Hlock as (g & Hh & _ & Hw). pose proof (Hall h g Hh) as E.
    destruct Hw as [[E' _]|(Hcr & _)]; [congruence|].
    rewrite E in Hcr. done.
  - destruct Hlock as [-> _]. split; [done|]. by exists order.
Qed.

(** On a well-formed window with buckets no goroutine blocks or panics. *)
Lemma linearized_progress s0 clocks c :
  wf s0 -> buckets (self s0) <> [] ->
  linearized s0 clocks c ->
  all_finished c \/ exists c', step c c'.
Proof.
  intros Hwf Hne [Hclk (order & s_lin & Hperm & Hexec & Hlock)].
  destruct (lock c) as [h|] eqn:Hheld.
  - right. destruct Hlock as (g & Hh & _ & [[E _]|(Hcr & HnotLock & k & Hk)]).
    { eexists. by eapply step_unlock. }
    destruct (exec_total (fail_op <$> order) s0 Hwf Hne)
      as (s & Hs & Hwf' & Hne').
    rewrite Hexec in Hs. injection Hs as <-.
    destruct (write_total WFail (since_reading g) (now_reading g) s_lin Hwf' Hne')
      as (s2 & HF & _). simpl in HF.
    pose proof (run_alone_is_Fail (since_reading g) (now_reading g) s_lin) as H8.
    rewrite HF in H8.
    destruct (run_alone 8 _ _ AtRead s_lin) as [[p s8]|] eqn:E8; [|done].
    destruct H8 as [-> _].
    destruct (local_step (since_reading g) (now_reading g) (ctl g))
      as [m|] eqn:Hloc.
    + assert (Hlt : (rank AtRead + k <= rank (ctl g))%nat).
      { eapply run_alone_rank; [exact Hk|by rewrite Hloc]. }
      destruct (body_pc (since_reading g) (now_reading g) (ctl g))
        as (_ & _ & Hle); [by rewrite Hloc|].
      simpl in Hlt.
      replace 8%nat with (k + S (7 - k))%nat in E8 by lia.
      rewrite run_alone_add, Hk in E8. simpl in E8. rewrite Hloc in E8.
      munfold_in E8.
      destruct (m (shared c)) as [[p' s']|] eqn:Hm; [|done].
      eexists. by eapply step_local.
    + (* past the body: excluded *)
      exfalso. destruct (ctl g); simpl in *; done.
  - destruct Hlock as [_ Hout].
    destruct (outside_all (routines c) Hout) as [Hall|(i & g & Hi & Hg)].
    + by left.
    + right. eexists. by eapply step_lock.
Qed.

(** Concurrent calls of [Fail] are linearized by the lock.  Whatever the
    clock readings and whatever the scheduler does, on a well-formed window
    with buckets the execution is finite and cannot block or panic, and
    when every goroutine has finished the lock is free and the window is in
    the state that the same calls give when made one after the other, in
    some order. *)
Theorem concurrent_writes_linearize (s : state) (clocks : list (Time * Time))
    (n : nat) (c : config)
    (Hwf : wf s) (Hne : buckets (self s) <> [])
    (Hrun : steps n (spawn s clocks) c) :
  (n <= 10 * length clocks)%nat /\
  (all_finished c \/ exists c', step c c') /\
  (all_finished c ->
   lock c = None /\
   exists order,
     order ≡ₚ clocks /\ exec (fail_op <$> order) s = Ok (tt, shared c)).
Proof.
  pose proof (linearized_steps s clocks n _ c (linearized_spawn s clocks) Hrun)
    as Hlin.
  destruct (steps_bound _ _ _ Hrun) as [Hn Hlen].
  split_and!.
  - pose proof (progress_bound (routines c)) as Hb.
    rewrite Hlen in Hb. simpl in Hb. rewrite length_fmap in Hb. lia.
  - by eapply linearized_progress.
  - intros Hall. by eapply linearized_finished.
Qed.

Lemma late_steps : steps 24 (spawn busy late_clocks) late_final.
Proof.
  apply (run_schedule_sound late_schedule). vm_compute. reflexivity.
Qed.

Lemma concurrent_writes_linearize_witness :
  wf busy /\ buckets (self busy) <> [] /\
  steps 24 (spawn busy late_clocks) late_final /\
  (24 <= 10 * length late_clocks)%nat /\
  (all_finished late_final \/ exists c', step late_final c') /\
  (all_finished late_final ->
   lock late_final = None /\
   exists order,
     order ≡ₚ late_clocks /\
     exec (fail_op <$> order) busy = Ok (tt, shared late_final)).
Proof.
  split; [exact busy_wf|]. split; [discriminate|]. split; [exact late_steps|].
  apply (concurrent_writes_linearize busy late_clocks 24 late_final busy_wf);
    [discriminate|exact late_steps].
Defined.

(** ** Concurrent writers after an idle period *)

Lemma fail_calls (l : list (Time * Time)) : fail_op <$> l = call_op <$> (fail_call <$> l).
Proof. by rewrite <- list_fmap_compose. Qed.

Lemma tally_fail_calls (l : list (Time * Time)) : tally WFail (fail_call <$> l) = Z.of_nat (length l).
Proof.
  induction l as [|ck l IH]; [done|]. csimpl. rewrite IH. lia.
Qed.

(** Calls of [Fail] one after the other, the first of which finds the
    window idle while the others come within one bucket duration. *)
Lemma idle_then_close s order T :
  wf s -> buckets (self s) <> [] -> order <> [] ->
  Forall (fun ck => Since (lastAccess (self s)) (fst ck) > bucketTime (self s))
    order ->
  Forall (readings_within T (bucketTime (self s))) order ->
  exists s' a' w f,
    exec (fail_op <$> order) s = Ok (tt, s') /\
    ring_Next (buckets (self s)) = Ok (buckets (self s')) /\
    current s' = Some a' /\
    heap s !! a' = Some w /\
    Failures s = Ok (f, s) /\
    Failures s' =
    Ok (wrap64 (f - failure w + Z.of_nat (length order)), s').
Proof.
  intros Hwf Hne Hsome Hidle Hclose.
  destruct order as [|ck order]; [done|].
  apply Forall_cons in Hidle as [Hidle _].
  apply Forall_cons in Hclose as [[_ [Hnow _]] Hclose].
  destruct (write_counts WFail (fst ck) (snd ck) s Hwf Hne)
    as (s1 & a' & w & stale & vs & Hrun1 & Hwf1 & Hne1 & Hbt1 & Hlast1 & Hcur1
        & Hw & Hvs & Hif).
  destruct (Z.gtb_spec (Since (lastAccess (self s)) (fst ck))
              (bucketTime (self s))) as [_|Hle]; [|lia].
  destruct Hif as (Hnext & (v0 & rest & -> & Hrot) & Hc1).
  assert (Hcalm : calm (lastAccess (self s1)) (bucketTime (self s1))
                    (fail_call <$> order)).
  { apply (within_span_calm T).
    - rewrite Hbt1. apply Hwf.
    - lia.
    - rewrite Hbt1. apply Forall_fmap. eapply Forall_impl; [exact Hclose|].
      by intros ck' H. }
  assert (HF1 : Failures s1 = Ok (wrap64 (failure (bump WFail zero_bucket)
                                           + sumZ failure stale), s1)).
  { by rewrite Failures_counts, Hc1. }
  destruct (read_total s1 (wf_ptrs _ Hwf1)) as (vs1 & _ & _ & _ & HS1 & _).
  destruct (calm_totals (fail_call <$> order) s1 _ _ Hwf1 Hne1 Hcalm HF1 HS1)
    as (s' & a1 & Hrun' & Hcur' & Hring' & _ & HF' & _).
  exists s', a', w, (wrap64 (sumZ failure (v0 :: rest))).
  split_and!.
  - csimpl. munfold. simpl in Hrun1. unfold fail_op at 1. simpl.
    rewrite Hrun1. by rewrite fail_calls.
  - by rewrite Hring'.
  - unfold current. rewrite Hring'. exact Hcur1.
  - done.
  - by rewrite Failures_counts, Hvs.
  - rewrite HF', tally_fail_calls. do 2 f_equal.
    rewrite wrap64_add_l, wrap64_sub_l.
    assert (Hsum : sumZ failure (v0 :: rest) = failure w + sumZ failure stale).
    { change (failure w + sumZ failure stale) with (sumZ failure (w :: stale)).
      rewrite <- Hrot, sumZ_app. simpl. lia. }
    rewrite Hsum. simpl length. rewrite Nat2Z.inj_succ. simpl failure.
    rewrite <- Z.add_assoc, wrap64_add_l. f_equal. lia.
Qed.

(** Goroutines that all find the window idle for more than a bucket
    duration, and whose clock readings are all within one bucket duration
    of each other, rotate the ring once between them, not once each: when
    they have finished the ring pointer is one element on, and the totals
    are all their failures and what was there, less what the bucket rotated
    into held. *)
Theorem idle_window_rotates_once (s : state) (clocks : list (Time * Time))
    (T : Time) (n : nat) (c : config)
    (Hwf : wf s) (Hne : buckets (self s) <> []) (Hsome : clocks <> [])
    (Hidle : Forall (fun ck => Since (lastAccess (self s)) (fst ck)
                               > bucketTime (self s)) clocks)
    (Hclose : Forall (readings_within T (bucketTime (self s))) clocks)
    (Hrun : steps n (spawn s clocks) c)
    (Hall : all_finished c) :
  ring_Next (buckets (self s)) = Ok (buckets (self (shared c))) /\
  exists a' w f,
    current (shared c) = Some a' /\
    heap s !! a' = Some w /\
    Failures s = Ok (f, s) /\
    Failures (shared c) =
    Ok (wrap64 (f - failure w + Z.of_nat (length clocks)), shared c).
Proof.
  pose proof (linearized_steps s clocks n _ c (linearized_spawn s clocks) Hrun)
    as Hlin.
  destruct (linearized_finished s clocks c Hlin Hall)
    as (_ & order & Hperm & Hexec).
  destruct (idle_then_close s order T Hwf Hne)
    as (s' & a' & w & f & Hexec' & Hnext & Hcur & Hw & HF & HF').
  - intros ->. apply Permutation_nil_l in Hperm. by destruct Hsome.
  - by rewrite Hperm.
  - by rewrite Hperm.
  - rewrite Hexec in Hexec'. injection Hexec' as <-.
    split; [done|]. exists a', w, f. split_and!; try done.
    by rewrite <- (Permutation_length Hperm).
Qed.

Lemma late_finished : all_finished late_final.
Proof. repeat constructor. Qed.

Lemma late_idle :
  Forall (fun ck => Since (lastAccess (self busy)) (fst ck)
                    > bucketTime (self busy)) late_clocks.
Proof. repeat (constructor; [vm_compute; reflexivity|]). constructor. Qed.

Lemma late_close :
  Forall (readings_within (6 * sec) (bucketTime (self busy))) late_clocks.
Proof.
  repeat (constructor;
          [unfold readings_within; simpl; unfold sec, ms; lia|]).
  constructor.
Qed.

Lemma idle_window_rotates_once_witness :
  wf busy /\ buckets (self busy) <> [] /\ late_clocks <> [] /\
  Forall (fun ck => Since (lastAccess (self busy)) (fst ck)
                    > bucketTime (self busy)) late_clocks /\
  Forall (readings_within (6 * sec) (bucketTime (self busy))) late_clocks /\
  steps 24 (spawn busy late_clocks) late_final /\
  all_finished late_final /\
  ring_Next (buckets (self busy)) = Ok (buckets (self (shared late_final))) /\
  exists a' w f,
    current (shared late_final) = Some a' /\
    heap busy !! a' = Some w /\
    Failures busy = Ok (f, busy) /\
    Failures (shared late_final) =
    Ok (wrap64 (f - failure w + Z.of_nat (length late_clocks)),
        shared late_final).
Proof.
  split; [exact busy_wf|]. split; [discriminate|]. split; [discriminate|].
  split; [exact late_idle|]. split; [exact late_close|].
  split; [exact late_steps|]. split; [exact late_finished|].
  apply (idle_window_rotates_once busy late_clocks (6 * sec) 24 late_final
           busy_wf);
    [discriminate|discriminate|exact late_idle|exact late_close
    |exact late_steps|exact late_finished].
Defined.
